(* ===== verification/_CoqProject ===== *)
-Q . S2P
Prelude.v
JsValue.v
JsNumber.v
JsonText.v
ImgTypes.v
Async.v
FetchApi.v
Store.v
Network.v
EventLoop.v
Invariants.v
Termination.v
Pinia.v
StoreApi.v
Reactivity.v
