(* ===== verification/Prelude.v ===== *)
(** * A verification development of the carousel-vue image store

    ** The program

    The repository's logic is one Pinia store, [src/src/store/images.ts]
    ([useImagesStore]).  It keeps three reactive fields, [images] (the
    decoded JSON of the Picsum list endpoint, typed [PicsumImage[]]),
    [loading] and [error], and offers two operations:
    - [fetchImages] (lines 10-29), an [async] function: it sets
      [loading := true] and [error := null], awaits
      [fetch('https://picsum.photos/v2/list')], throws an [Error] when the
      response is not ok, awaits [response.json()] and stores the result;
      its [catch] records the error's message (or a fallback string) and
      logs it with [console.error]; its [finally] clears [loading];
    - [getImageById(id)] (lines 31-33), which runs
      [images.value.find(image => image.id === id)].
    The store is declared with [defineStore('images', setup)] (line 5);
    the setup function returns the refs and the two functions (lines
    35-41), and Pinia hands the same store to every consumer that calls
    [useImagesStore()].  A UI calls [fetchImages] and reads or watches
    the fields; nothing prevents a new call while an earlier one is
    suspended.

    ** Files, in dependency order
    - [Prelude] (this file): the scope [carousel_scope], the hint
      database [carousel], the tactics [invc], [case_if], [simp_cv], and
      lemmas on strings and on [List.find] (its first-match
      characterisation and its agreement with stdpp's [list_find]).
    - [JsValue]: JavaScript values as the store meets them: [json]
      (what [response.json()] yields), thrown values [js_throw]
      ([instanceof Error] or not), completion records, the property read
      [get_id] ([image.id], [TypeError] on [null]), [strict_eq_str]
      ([===] against a string) and [array_find]
      ([Array.prototype.find]).  Platform semantics, not repository code.
    - [JsNumber]: [number_to_string], the decimal [Number::toString] used
      by the template literal of line 18, its inverse [string_to_integer],
      the round trip and a digit-count bound.
    - [JsonText]: the JSON text behind [response.json()]: [parse_json]
      ([JSON.parse] on the body's characters, the grammar of RFC 8259 by
      mutual recursion on a fuel) and [print_json] (the text a server
      sends).  Platform semantics, not repository code.
    - [ImgTypes]: the [PicsumImage] record of [@/types/imgTypes] (a file
      not among the sources; modelled from the spec and the Picsum API),
      its JSON encoding and the decoder that gives the typed view.
    - [Async]: [async]/[await] as resumable programs [proc W R A] with
      [try_catch], [try_finally] and the two kinds of [await]; [run]
      executes a program against a list of settlements, [run_sync] runs
      the synchronous segment up to the next suspension.
    - [FetchApi]: the class [FetchResponse], the interface the store
      uses from the Fetch API ([resp_ok] holds exactly for statuses
      200..299), and a concrete [Response] with its instance.
    - [Store]: the component.  [store] is the record of the three refs,
      [world] adds the console; [fetchImages] is the function
      statement by statement ([fetch_try_block], [fetch_catch_block],
      [http_error_message], [catch_message]); [getImageById] with
      [id_matches].  The abstract contract of a fetch is [apply_result]
      of [outcome_result]: a network outcome gives success with data or
      failure with a thrown value, and the result gives the new state.
    - [Network]: where the outcomes come from.  A [server] is
      unreachable ([fetch] rejects with a [TypeError]) or answers with a
      status and a body text ([TextResponse], an instance of
      [FetchResponse]); [response_json] is the platform's
      [response.json()] awaited at line 21: [JSON.parse] of the body or
      a [SyntaxError]; [network_outcome]
      turns a server into the outcome Store's contract consumes.
    - [EventLoop]: overlapping calls.  A configuration holds the world,
      the suspended calls (a [gmap] from call numbers to programs), the
      call counter and the settled calls' completions; [step] is a call
      or the settlement of a suspended call's promise, in any order.
      [phase_step] is the abstract machine whose suspended calls are
      only the [await] they wait at; the concrete machine refines it, and
      the invariants are proved on it by rule induction.
    - [Invariants]: the store over every interleaving, as the last
      writes of the trace ([images_write], [loading_write],
      [error_write] read off lines 11, 12, 22, 24 and 27), and the
      invariants derived from it.
    - [Termination]: the measure [settle_budget] (suspended calls plus
      those still awaiting [fetch]) that every settlement lowers, and
      the termination, bound and quiescence theorems it gives.
    - [Pinia]: Pinia's registry of stores ([defineStore]'s [useStore]),
      a library the store calls, modelled from its documented
      behaviour: ids mapped to locations of a heap of store states.
    - [StoreApi]: [useImagesStore] (lines 5-42), the object its setup
      returns (lines 35-41) as the record [images_api] with the laws
      [ImagesStoreLaws] it promises, and consumers proved against them.
    - [Reactivity]: Vue's synchronous watchers ([watch] with
      [flush: 'sync']) on the primitive fields, over the worlds a run
      passes through ([Async.run_obs]).

    ** What is proved
    The numbered theorems (C1-C31) are the properties of the program;
    the other lemmas are the library that proves them, and the
    [Example]s are concrete runs that illustrate the findings.
    - Contract of [fetchImages] (Store): refinement in both directions
      (C1, C2): every outcome runs to the contract's state and every
      completed run is explained by an outcome, the returned promise
      always fulfils; the success, HTTP-error and failure branches (C3-C5);
      the synchronous prefix (C15); idempotence of two identical
      successful fetches (C20).  [fetchImages_empty_message] runs the
      empty-message case of line 24.
    - [getImageById] (Store): exact characterisation of its three
      outcomes, the first match, [undefined] and [TypeError] (C6, C16,
      C17), and equivalence with stdpp's [list_find] over the typed view
      of the collection (C7).
    - The error message: round trip of the status through the message
      (C18) and a bound on its length (C19).
    - Overlapping calls (EventLoop): the refinement of the coroutine
      machine by the abstract machine (C8); [loading] implies a suspended
      call (C9); every suspended call ends after at most two settlements
      (C10); a call not interleaved with others follows the sequential
      contract (C11); no returned promise rejects (C12); the collection
      only ever holds the initial array or delivered data (C13); the
      store and the console are a fold of the event trace, one console
      line per failed call (C14).  Three schedules of two calls are run
      as examples: [loading] cleared while a call is suspended, new data
      beside a stale error, the last settlement deciding the collection.
    - The store over all interleavings (Invariants): [loading = true]
      never comes with an error message (C21); bodies that decode as
      [PicsumImage[]] keep the collection typed and [getImageById]
      total (C22).  The lemmas [store_last_writes] (each field is the
      last value the trace wrote) and [calls_accounted_reach] (every
      call is suspended or completed, once) support them.
    - Termination (Termination): settlements without new calls are a
      well-founded relation (C23), at most two per suspended call
      (C24), and one per suspended call can end them all (C25).
    - The store object (StoreApi): consumers of [useImagesStore()] share
      one store, the setup never runs twice (C26).  The object of lines
      35-41 satisfies the interface [ImagesStoreLaws] ([store_api_laws]),
      against which a consumer's fetch-then-lookup is proved
      ([fetch_then_lookup]).
    - Watchers (Reactivity): in a call run to its end a synchronous
      watcher of [loading] is called exactly twice (C27), one of [error]
      exactly when it is cleared or set (C28), and the first [loading]
      call sees [loading = true] beside the previous error (C29).
    - The body of the response (Network, with JsonText): a fetch from a
      server printing a list of records stores exactly those records
      (C30); for every server the fetch ends without an error exactly
      when the status is ok and the body is JSON text, and keeps the
      collection otherwise (C31).  They rest on the parser's lemmas:
      parsing a printed value gives it back ([parse_print_value]) and
      the fuel is enough ([parse_json_fuel]).

    ** Choices of the model
    - No fuel in the program model: [proc] is an inductive tree, [run]
      and [run_sync] are structural.  The only fuel is that of the
      decimal printer, [S (N.size n)] digits for [n], which is enough
      since [n < 2 ^ N.size n <= 10 ^ N.size n] ([size_digits_enough]);
      the printer stops by itself when the quotient is [0].  The JSON
      parser runs on the fuel [S (2 * length cs)] for a text [cs]: every
      call that succeeds consumes at least one character
      ([parse_consumes]), and a parse that succeeds with some fuel
      succeeds with twice the number of characters it consumes
      ([parse_needs]), so the bound never cuts a parse short
      ([parse_json_fuel]).
    - JSON numbers are integers ([Z]): the payload's numbers are widths
      and heights, and no behaviour of the store depends on a number
      ([===] against a string is false for every number).  Statuses are
      integers; [status_in_range] states the Fetch range 0..999.
    - An object member read gives the last occurrence of a duplicated
      key, as [JSON.parse] defines members in order.
    - The store and the event loop take the environment by its
      results: the settlement of each awaited promise is an input
      ([answer], [event]), so their theorems hold for any network.  Any
      order of settlements is allowed, which covers every schedule of
      the microtask queue.  Network.v produces these settlements from a
      server and a body text, for the theorems that need the parser.
    - The budget of Termination is [2] per call awaiting [fetch] and [1]
      per call awaiting [response.json()]: a call has at most these two
      [await]s, which is why [2 * n] bounds the settlements of [n]
      suspended calls.
    - A Pinia store is a location of a heap ([Pinia.heap]); the registry
      maps the id ['images'] to it.  Sharing between consumers is the
      sharing of that location, not a copy of the state.

    ** Not modelled
    - Vue's reactivity beyond synchronous watchers of primitive
      values: [ref] proxies and dependency tracking as such, watchers
      flushed ['pre'] or ['post'] (queued in microtasks that interleave
      with the promise settlements), renders, and watchers of the
      [images] array, which Vue compares by identity and the model's
      JSON values cannot.
    - Pinia beyond the registry: devtools, plugins, [$patch],
      [$subscribe], [$reset] (which setup stores do not have).
    - The network beyond a status and a body text: headers, redirects,
      streaming, the transport's timeouts.  The messages of engine
      errors ([TypeError]s of the network and of property reads,
      [SyntaxError] of [JSON.parse]) differ between engines and are
      fixed strings.
    - JSON number literals with a fraction or an exponent, and [\u]
      escapes above 255: the parser rejects them, where [JSON.parse]
      accepts them; the Picsum payload's numbers are integers.  Strings
      are byte strings: the UTF-8 bytes of a body pass through a string
      literal unchanged, and are not decoded into UTF-16 code units.
    - The type-only import of [PicsumImage] (line 3) has no code; its
      record is modelled from the spec in ImgTypes.
    - Cancellation and timeouts, which the code does not have.

    ** Open directions
    - Decidable equality instances for [json] and the events, for
      [decide]-driven case analysis in the witnesses.
    - Watchers flushed ['pre']: Vue's job queue as a microtask beside
      the settlements of the event loop, and what such a watcher sees
      of overlapping calls. *)

(** This file, the root of the development, holds what every component
    shares: the notation scope [carousel_scope], the hint database
    [carousel], the development's tactics, and generic lemmas on lists,
    options and strings. *)

From stdpp Require Export base list strings.
From Stdlib Require Export ZArith Lia.

Declare Scope carousel_scope.
Delimit Scope carousel_scope with cv.

Create HintDb carousel discriminated.
Create Rewrite HintDb carousel.

(** ** Tactics *)

(** [invc H]: invert a hypothesis, substitute, and drop it. *)
Ltac invc H := inversion H; subst; clear H.

(** [case_if]: split on the first boolean [if] of the goal, naming the
    equation. *)
Ltac case_if :=
  match goal with
  | |- context [if ?b then _ else _] =>
      let E := fresh "E" in destruct b eqn:E
  end.

(** [simp_cv]: rewrite with the development's equations and reduce. *)
Ltac simp_cv := autorewrite with carousel in *; simpl in *.

(** ** Strings *)

(** stdpp makes [String.append] opaque to [simpl]; these two equations
    are its defining clauses. *)
Lemma string_app_nil_l (s : string) : "" +:+ s = s.
Proof. reflexivity. Qed.

Lemma string_app_cons (c : Ascii.ascii) (s1 s2 : string) :
  String c s1 +:+ s2 = String c (s1 +:+ s2).
Proof. reflexivity. Qed.

Lemma string_app_assoc (s1 s2 s3 : string) :
  (s1 +:+ s2) +:+ s3 = s1 +:+ (s2 +:+ s3).
Proof.
  induction s1 as [|c s1 IH]; rewrite ?string_app_cons, ?string_app_nil_l; congruence.
Qed.

Lemma string_app_nil_r (s : string) : s +:+ "" = s.
Proof. induction s as [|c s IH]; rewrite ?string_app_cons, ?string_app_nil_l; congruence. Qed.

Lemma string_length_app (s1 s2 : string) :
  String.length (s1 +:+ s2) = String.length s1 + String.length s2.
Proof.
  induction s1 as [|c s1 IH]; rewrite ?string_app_cons, ?string_app_nil_l; simpl; lia.
Qed.

#[export] Hint Rewrite string_app_nil_l string_app_cons string_app_assoc string_app_nil_r string_length_app : carousel.

(** ** [List.find]: the first element satisfying a test *)

Section Find.
Context {A : Type} (f : A -> bool).

Lemma find_None_Forall (l : list A) :
  List.find f l = None <-> Forall (fun y => f y = false) l.
Proof.
  induction l as [|x l IH]; simpl; [split; constructor |].
  destruct (f x) eqn:Hx; split; intros H.
  - discriminate.
  - by invc H; congruence.
  - constructor; [done | by apply IH].
  - apply IH. by invc H.
Qed.

Lemma find_Some_first (l : list A) (x : A) :
  List.find f l = Some x <->
  exists pre post, l = pre ++ x :: post /\ f x = true /\
                   Forall (fun y => f y = false) pre.
Proof.
  induction l as [|y l IH]; simpl.
  - split; [discriminate |]. intros (pre & post & Hl & _). by destruct pre.
  - destruct (f y) eqn:Hy; split.
    + intros [= <-]. by exists [], l.
    + intros (pre & post & Hl & Hx & Hpre). destruct pre as [|z pre]; simpl in Hl.
      * by invc Hl.
      * invc Hl. invc Hpre. congruence.
    + intros (pre & post & Hl & Hx & Hpre)%IH. exists (y :: pre), post.
      repeat split; [by rewrite Hl | done | by constructor].
    + intros (pre & post & Hl & Hx & Hpre). destruct pre as [|z pre]; simpl in Hl.
      * invc Hl. congruence.
      * invc Hl. invc Hpre. apply IH. by exists pre, post.
Qed.

(** [List.find] agrees with stdpp's index-returning [list_find]. *)
Lemma find_list_find (l : list A) :
  List.find f l = snd <$> list_find (fun y => f y = true) l.
Proof.
  induction l as [|y l IH]; simpl; [done |].
  destruct (f y) eqn:Hy; simpl.
  - done.
  - rewrite IH. by destruct (list_find _ l) as [[i z]|].
Qed.
End Find.

Lemma find_map {A B} (f : B -> bool) (g : A -> B) (l : list A) :
  List.find f (map g l) = option_map g (List.find (fun x => f (g x)) l).
Proof. induction l as [|x l IH]; simpl; [done |]. by destruct (f (g x)). Qed.

#[export] Hint Rewrite @find_map : carousel.

(** ** Folds and last writes over a trace *)

(** A property kept by every step of a left fold holds of its result. *)
Lemma foldl_invariant {A B} (P : B -> Prop) (f : B -> A -> B) (l : list A) (b : B) :
  P b -> (forall b x, P b -> P (f b x)) -> P (foldl f b l).
Proof. intros Hb Hf. revert b Hb. induction l as [|x l IH]; simpl; auto. Qed.

(** The last value an optional reading gives on a list grown at its end. *)
Lemma last_omap_snoc {A B} (f : A -> option B) (l : list A) (x : A) :
  last (omap f (l ++ [x])) = match f x with Some y => Some y | None => last (omap f l) end.
Proof. rewrite omap_app, last_app. simpl. by destruct (f x). Qed.

#[export] Hint Rewrite @last_omap_snoc @foldl_snoc : carousel.
