(* ===== verification/JsValue.v ===== *)
(** * JavaScript values as the store sees them

    The JSON values that [response.json()] produces, the values a [throw]
    or a rejected promise carries, completion records (normal or abrupt),
    and the three pieces of the language that [getImageById] relies on:
    reading the property [id] of a value, strict equality [===] of that
    property with a string, and [Array.prototype.find].  These are
    semantics of the JavaScript platform, written from the ECMAScript and
    JSON specifications, not code of the repository. *)

From S2P Require Import Prelude.

Local Set Warnings "-register-all".

(** ** Values *)

(** A value decoded by [JSON.parse].  Objects keep their members in
    source order, duplicates included; numbers are kept as integers,
    which is all the Picsum payload holds (see the root header). *)
Inductive json : Type :=
| JNull
| JBool (b : bool)
| JNum (n : Z)
| JStr (s : string)
| JArr (xs : list json)
| JObj (fields : list (string * json)).

(** What a [throw] or a rejected promise carries: an object that is
    [instanceof Error] (with its [name] and [message]), or any other
    value. *)
Inductive js_throw : Type :=
| JsError (name message : string)
| NonError (v : json).

(** A completion record: a statement or call ends normally with a value
    or abruptly with a thrown value. *)
Inductive completion (A : Type) : Type :=
| Normal (a : A)
| Abrupt (e : js_throw).
Arguments Normal {A} a.
Arguments Abrupt {A} e.

(** A [TypeError] raised by the engine (message as V8 words it). *)
Definition type_error (msg : string) : js_throw := JsError "TypeError" msg.

(** ** Property access *)

(** [JSON.parse] defines members left to right, so for a duplicated key
    the last occurrence is the value of the property. *)
Fixpoint obj_get (fields : list (string * json)) (k : string) : option json :=
  match fields with
  | [] => None
  | (k', v) :: rest =>
      match obj_get rest k with
      | Some w => Some w
      | None => if String.eqb k k' then Some v else None
      end
  end.

(** [v.id]: [None] is [undefined].  Reading a property of [null] throws a
    [TypeError]; primitives and arrays have no property [id] (none of
    their prototypes defines one), so the read gives [undefined]. *)
Definition get_id (v : json) : completion (option json) :=
  match v with
  | JNull => Abrupt (type_error "Cannot read properties of null (reading 'id')")
  | JObj fields => Normal (obj_get fields "id")
  | _ => Normal None
  end.

(** [x === s] for a string [s]: true exactly when [x] is a string with the
    same code units. *)
Definition strict_eq_str (x : option json) (s : string) : bool :=
  match x with
  | Some (JStr t) => String.eqb t s
  | _ => false
  end.

(** ** [Array.prototype.find] *)

(** The loop of [find]: the predicate is called on the elements in index
    order; the first element it accepts is returned, [undefined] if none,
    and an exception of the predicate ends the loop. *)
Fixpoint find_loop (pred : json -> completion bool) (xs : list json)
  : completion (option json) :=
  match xs with
  | [] => Normal None
  | x :: rest =>
      match pred x with
      | Abrupt e => Abrupt e
      | Normal true => Normal (Some x)
      | Normal false => find_loop pred rest
      end
  end.

(** [recv.find(pred)]: only arrays have a [find] method among JSON values;
    on [null] the property read throws, on anything else the call of a
    non-function throws. *)
Definition array_find (recv : json) (pred : json -> completion bool)
  : completion (option json) :=
  match recv with
  | JArr xs => find_loop pred xs
  | JNull => Abrupt (type_error "Cannot read properties of null (reading 'find')")
  | _ => Abrupt (type_error "images.value.find is not a function")
  end.

(** ** Lemmas *)

Lemma obj_get_app (f1 f2 : list (string * json)) (k : string) :
  obj_get (f1 ++ f2) k =
  match obj_get f2 k with Some w => Some w | None => obj_get f1 k end.
Proof.
  induction f1 as [|[k' v] f1 IH]; simpl; [by destruct (obj_get f2 k) |].
  rewrite IH. by destruct (obj_get f2 k).
Qed.

(** A predicate that never throws makes [find_loop] the list [find]. *)
Lemma find_loop_pure (f : json -> bool) (xs : list json) :
  find_loop (fun x => Normal (f x)) xs = Normal (List.find f xs).
Proof. induction xs as [|x xs IH]; simpl; [done |]. by destruct (f x). Qed.

(** [find_loop] ends normally with [Some x] exactly when [x] is the first
    element accepted and the predicate returned [false], without
    throwing, on every element before it. *)
Lemma find_loop_Some (pred : json -> completion bool) (xs : list json) (x : json) :
  find_loop pred xs = Normal (Some x) <->
  exists pre post, xs = pre ++ x :: post /\ pred x = Normal true /\
                   Forall (fun y => pred y = Normal false) pre.
Proof.
  induction xs as [|y xs IH]; simpl.
  - split; [discriminate |]. intros (pre & post & H & _). by destruct pre.
  - destruct (pred y) as [[|]|e] eqn:Hy; split.
    + intros [= <-]. by exists [], xs.
    + intros (pre & post & Hl & Hx & Hpre). destruct pre as [|z pre]; simpl in Hl.
      * by invc Hl.
      * invc Hl. invc Hpre. congruence.
    + intros (pre & post & Hl & Hx & Hpre)%IH. exists (y :: pre), post.
      repeat split; [by rewrite Hl | done | by constructor].
    + intros (pre & post & Hl & Hx & Hpre). destruct pre as [|z pre]; simpl in Hl.
      * invc Hl. congruence.
      * invc Hl. invc Hpre. apply IH. by exists pre, post.
    + discriminate.
    + intros (pre & post & Hl & Hx & Hpre). destruct pre as [|z pre]; simpl in Hl.
      * invc Hl. congruence.
      * invc Hl. invc Hpre. congruence.
Qed.

(** [find_loop] ends normally with [undefined] exactly when the predicate
    returned [false] on every element. *)
Lemma find_loop_None (pred : json -> completion bool) (xs : list json) :
  find_loop pred xs = Normal None <-> Forall (fun y => pred y = Normal false) xs.
Proof.
  induction xs as [|y xs IH]; simpl; [split; [constructor | done] |].
  rewrite Forall_cons, <- IH.
  destruct (pred y) as [[|]|e].
  - split; [discriminate | intros [Hy _]; discriminate].
  - split; [intros Hy; by split | by intros [_ Hy]].
  - split; [discriminate | intros [Hy _]; discriminate].
Qed.

(** [find_loop] throws exactly when the predicate throws on an element
    and returned [false] on every element before it. *)
Lemma find_loop_Abrupt (pred : json -> completion bool) (xs : list json) (e : js_throw) :
  find_loop pred xs = Abrupt e <->
  exists pre x post, xs = pre ++ x :: post /\ pred x = Abrupt e /\
                     Forall (fun y => pred y = Normal false) pre.
Proof.
  induction xs as [|y xs IH]; simpl.
  - split; [discriminate |]. intros (pre & x & post & H & _). by destruct pre.
  - split.
    + destruct (pred y) as [[|]|e'] eqn:Hy; intros Hf; try discriminate.
      * apply IH in Hf as (pre & x & post & -> & Hx & Hpre).
        exists (y :: pre), x, post. repeat split; [done | by constructor].
      * invc Hf. by exists [], y, xs.
    + intros (pre & x & post & Hl & Hx & Hpre). destruct pre as [|z pre]; simpl in Hl.
      * invc Hl. by rewrite Hx.
      * invc Hl. invc Hpre. match goal with H : pred z = _ |- _ => rewrite H end.
        apply IH. by exists pre, x, post.
Qed.

#[export] Hint Rewrite find_loop_pure obj_get_app : carousel.
