(* ===== verification/JsNumber.v ===== *)
(** * Decimal rendering of integral numbers

    The template literal [`HTTP error! status: ${response.status}`] of
    [fetchImages] converts the status, a [Number], to a string with
    [Number::toString].  For an integral value of magnitude below 10^21
    that conversion writes the value in decimal, without leading zeros,
    with a [-] sign for negative values.  [number_to_string] is that
    conversion on [Z]; [string_to_integer] reads such a string back, and
    the round-trip theorem says that no information is lost. *)

From Stdlib Require Import Ascii.
From S2P Require Import Prelude.

Local Open Scope N_scope.

(** ** Printing *)

Definition digit_char (d : N) : ascii := ascii_of_N (48 + d).

(** Digits are produced least significant first, each one consed in front
    of the accumulator.  The fuel bounds the number of digits: the loop
    stops by itself when the quotient reaches [0]. *)
Fixpoint digits_fuel (fuel : nat) (n : N) (acc : string) : string :=
  match fuel with
  | O => acc
  | S fuel' =>
      let acc' := String (digit_char (n mod 10)) acc in
      if n / 10 =? 0 then acc' else digits_fuel fuel' (n / 10) acc'
  end.

(** [N.size n] bits are always enough digits, and one more fuel makes [0]
    print as ["0"]. *)
Definition N_to_decimal (n : N) : string :=
  digits_fuel (S (N.to_nat (N.size n))) n "".

Definition number_to_string (z : Z) : string :=
  if (z <? 0)%Z then "-" +:+ N_to_decimal (Z.to_N (- z))
  else N_to_decimal (Z.to_N z).

(** ** Reading back *)

Definition digit_value (c : ascii) : option N :=
  let k := N_of_ascii c in
  if (48 <=? k) && (k <? 58) then Some (k - 48) else None.

Definition is_digit (c : ascii) : bool :=
  match digit_value c with Some _ => true | None => false end.

Fixpoint parse_digits (s : string) (acc : N) : option N :=
  match s with
  | EmptyString => Some acc
  | String c rest =>
      match digit_value c with
      | Some d => parse_digits rest (10 * acc + d)
      | None => None
      end
  end.

Definition parse_decimal (s : string) : option N :=
  match s with
  | EmptyString => None
  | _ => parse_digits s 0
  end.

Definition string_to_integer (s : string) : option Z :=
  match s with
  | String c rest =>
      if Ascii.eqb c "-" then (fun n => (- Z.of_N n)%Z) <$> parse_decimal rest
      else Z.of_N <$> parse_decimal s
  | EmptyString => None
  end.

(** ** Lemmas *)

Lemma digit_value_char (d : N) : d < 10 -> digit_value (digit_char d) = Some d.
Proof.
  intros Hd. unfold digit_value, digit_char.
  rewrite N_ascii_embedding by lia.
  replace ((48 <=? 48 + d) && (48 + d <? 58)) with true; [f_equal; lia |].
  symmetry. apply andb_true_intro. split; [apply N.leb_le | apply N.ltb_lt]; lia.
Qed.

Lemma parse_digits_cons (d : N) (s : string) (a : N) :
  d < 10 -> parse_digits (String (digit_char d) s) a = parse_digits s (10 * a + d).
Proof. intros Hd. simpl. by rewrite digit_value_char. Qed.

Lemma digits_fuel_nonempty (fuel : nat) (n : N) (acc : string) :
  acc <> "" -> digits_fuel fuel n acc <> "".
Proof.
  revert n acc. induction fuel as [|f IH]; intros n acc Hacc; simpl; [done |].
  destruct (n / 10 =? 0); [discriminate | by apply IH].
Qed.

Lemma digits_fuel_S_nonempty (fuel : nat) (n : N) (acc : string) :
  digits_fuel (S fuel) n acc <> "".
Proof.
  simpl. destruct (n / 10 =? 0); [discriminate |].
  by apply digits_fuel_nonempty.
Qed.

(** The loop invariant of printing, read by the parser: the digits of
    [n] followed by [acc] parse as [acc] after the digits of [n]. *)
Lemma digits_fuel_parse (fuel : nat) :
  forall n acc a, n < 10 ^ N.of_nat fuel ->
  exists k, parse_digits (digits_fuel fuel n acc) a = parse_digits acc (a * 10 ^ k + n).
Proof.
  induction fuel as [|f IH]; intros n acc a Hn; simpl.
  - exists 0. f_equal. simpl in Hn. lia.
  - pose proof (N.mod_lt n 10 ltac:(lia)) as Hmod.
    pose proof (N.div_mod n 10 ltac:(lia)) as Hdm.
    destruct (N.eqb_spec (n / 10) 0) as [Hq | Hq].
    + exists 1. rewrite parse_digits_cons by done. f_equal. lia.
    + assert (n / 10 < 10 ^ N.of_nat f).
      { apply N.Div0.div_lt_upper_bound.
        by rewrite Nat2N.inj_succ, N.pow_succ_r' in Hn. }
      destruct (IH (n / 10) (String (digit_char (n mod 10)) acc) a) as [k Hk]; [done |].
      exists (N.succ k). rewrite Hk, parse_digits_cons by done. f_equal.
      rewrite N.pow_succ_r'. lia.
Qed.

(** Each fuel step adds one digit, and a number below [10 ^ k] has at
    most [k] digits. *)
Lemma digits_fuel_length (fuel : nat) :
  forall n acc k, (1 <= k)%nat -> n < 10 ^ N.of_nat k ->
  (String.length (digits_fuel fuel n acc) <= k + String.length acc)%nat.
Proof.
  induction fuel as [|f IH]; intros n acc k Hk Hn; simpl; [lia |].
  destruct (N.eqb_spec (n / 10) 0) as [Hq | Hq]; simpl; [lia |].
  destruct k as [|[|k]]; [lia | |].
  - exfalso. apply Hq. apply N.div_small. simpl in Hn. lia.
  - pose proof (IH (n / 10) (String (digit_char (n mod 10)) acc) (S k)) as H.
    simpl in H. enough (n / 10 < 10 ^ N.of_nat (S k)) by (specialize (H ltac:(lia)); lia).
    apply N.Div0.div_lt_upper_bound.
    by rewrite Nat2N.inj_succ, N.pow_succ_r' in Hn.
Qed.

Lemma size_digits_enough (n : N) : n < 10 ^ N.of_nat (S (N.to_nat (N.size n))).
Proof.
  rewrite Nat2N.inj_succ, N2Nat.id.
  eapply N.lt_le_trans; [apply N.size_gt |].
  eapply N.le_trans; [apply (N.pow_le_mono_l 2 10); lia |].
  apply N.pow_le_mono_r; lia.
Qed.

Lemma parse_decimal_N_to_decimal (n : N) : parse_decimal (N_to_decimal n) = Some n.
Proof.
  unfold parse_decimal, N_to_decimal.
  destruct (digits_fuel_parse (S (N.to_nat (N.size n))) n "" 0 (size_digits_enough n))
    as [k Hk].
  destruct (digits_fuel _ n "") eqn:E.
  - by apply digits_fuel_S_nonempty in E.
  - change (parse_digits (String a s) 0 = Some n). rewrite Hk. simpl. f_equal; lia.
Qed.

(** A decimal rendering never starts with a sign. *)
Lemma N_to_decimal_no_sign (n : N) (rest : string) : N_to_decimal n <> String "-" rest.
Proof.
  intros E. pose proof (parse_decimal_N_to_decimal n) as H.
  rewrite E in H. discriminate.
Qed.

(** Number of digits: a value below [10 ^ k] prints in at most [k]
    characters. *)
Lemma N_to_decimal_length (n : N) (k : nat) :
  (1 <= k)%nat -> n < 10 ^ N.of_nat k -> (String.length (N_to_decimal n) <= k)%nat.
Proof.
  intros Hk Hn. pose proof (digits_fuel_length (S (N.to_nat (N.size n))) n "" k Hk Hn).
  unfold N_to_decimal. simpl in *. lia.
Qed.

(** [string_to_integer] inverts [number_to_string] on every integer. *)
Lemma string_to_integer_number_to_string (z : Z) :
  string_to_integer (number_to_string z) = Some z.
Proof.
  unfold number_to_string. destruct (Z.ltb_spec z 0) as [Hz | Hz].
  - rewrite string_app_cons, string_app_nil_l. simpl.
    rewrite parse_decimal_N_to_decimal. simpl. f_equal. lia.
  - destruct (N_to_decimal (Z.to_N z)) as [|c rest] eqn:E.
    + pose proof (parse_decimal_N_to_decimal (Z.to_N z)) as H. by rewrite E in H.
    + unfold string_to_integer. rewrite <- E.
      destruct (Ascii.eqb_spec c "-") as [-> | Hc].
      * by apply N_to_decimal_no_sign in E.
      * rewrite parse_decimal_N_to_decimal. simpl. f_equal. lia.
Qed.

(** Every string [number_to_string] produces for a value in
    [0 .. 10 ^ k - 1] has at most [k] characters. *)
Lemma number_to_string_length (z : Z) (k : nat) :
  (1 <= k)%nat -> (0 <= z < 10 ^ Z.of_nat k)%Z ->
  (String.length (number_to_string z) <= k)%nat.
Proof.
  intros Hk Hz. unfold number_to_string.
  destruct (Z.ltb_spec z 0); [lia |]. apply N_to_decimal_length; [done |].
  apply N2Z.inj_lt. rewrite N2Z.inj_pow, nat_N_Z, Z2N.id by lia. lia.
Qed.

(** Every character of a decimal rendering is a digit. *)
Lemma digits_fuel_digits (fuel : nat) (n : N) (acc : string) :
  Forall (fun c => is_digit c = true) (String.list_ascii_of_string acc) ->
  Forall (fun c => is_digit c = true) (String.list_ascii_of_string (digits_fuel fuel n acc)).
Proof.
  revert n acc. induction fuel as [|f IH]; intros n acc Hacc; simpl; [done |].
  assert (Forall (fun c => is_digit c = true)
            (String.list_ascii_of_string (String (digit_char (n mod 10)) acc))).
  { constructor; [| done]. unfold is_digit. rewrite digit_value_char; [done |].
    apply N.mod_lt. lia. }
  destruct (n / 10 =? 0); [done | by apply IH].
Qed.

Lemma N_to_decimal_digits (n : N) :
  Forall (fun c => is_digit c = true) (String.list_ascii_of_string (N_to_decimal n)).
Proof. apply digits_fuel_digits. constructor. Qed.

(** A positive number's rendering does not start with [0]. *)
Lemma digits_fuel_lead (fuel : nat) :
  forall n acc, 0 < n -> n < 10 ^ N.of_nat fuel ->
  exists c s, digits_fuel fuel n acc = String c s /\ c <> "0"%char.
Proof.
  induction fuel as [|f IH]; intros n acc Hpos Hn; simpl in *; [lia |].
  destruct (N.eqb_spec (n / 10) 0) as [Hq | Hq].
  - do 2 eexists. split; [done |]. intros Hc.
    assert (n < 10) by (apply (N.div_small_iff n 10); lia).
    pose proof (digit_value_char (n mod 10) ltac:(apply N.mod_lt; lia)) as Hv.
    rewrite Hc in Hv. rewrite N.mod_small in Hv by lia. vm_compute in Hv. injection Hv as Hv. lia.
  - apply IH; [by apply N.neq_0_lt_0 |]. apply N.Div0.div_lt_upper_bound.
    by rewrite Nat2N.inj_succ, N.pow_succ_r' in Hn.
Qed.

(** Renderings are canonical: ["0"], or a first digit other than [0]. *)
Lemma N_to_decimal_canonical (n : N) :
  N_to_decimal n = "0" \/ exists c s, N_to_decimal n = String c s /\ c <> "0"%char.
Proof.
  destruct (N.eqb_spec n 0) as [-> | Hn]; [by left | right].
  apply digits_fuel_lead; [lia | apply size_digits_enough].
Qed.
