(* ===== verification/JsonText.v ===== *)
(** * JSON text: the parser behind [response.json()]

    [await response.json()] (line 21 of [images.ts]) reads the body of
    the response and runs [JSON.parse] on it: the promise fulfils with
    the value, or rejects with a [SyntaxError] when the text is not
    JSON.  This file models that parser on the body's characters, and a
    printer of JSON text (what a server such as Picsum sends).

    - [parse_value], [parse_elems] and [parse_members] are the grammar of
      RFC 8259 (values, arrays, objects, strings with their escapes,
      integers without leading zeros, insignificant whitespace), by
      mutual recursion on a fuel; [parse_json] gives them
      [json_fuel cs = S (2 * length cs)] and requires that only
      whitespace follows the value.
    - [print_json] writes a value without whitespace, escaping the
      quote, the backslash and the control characters.

    The theorems: parsing a printed value gives it back
    ([parse_print_value]), and the fuel is enough: any larger fuel gives
    the same result ([parse_json_fuel]).

    Out of the model: number literals with a fraction or an exponent
    (rejected here, where [JSON.parse] gives a [Number]; the payload's
    numbers are integers), and characters beyond 8 bits ([\u] escapes
    above 255 are rejected here). *)

From Stdlib Require Import Ascii.
From S2P Require Import Prelude JsValue JsNumber.

Local Open Scope char_scope.

(** ** Characters *)

Definition quote_char : ascii := ascii_of_nat 34.
Definition backslash : ascii := ascii_of_nat 92.

(** Whitespace: space, tab, line feed, carriage return. *)
Definition is_ws (c : ascii) : bool :=
  Ascii.eqb c " " || Ascii.eqb c (ascii_of_nat 9) ||
  Ascii.eqb c (ascii_of_nat 10) || Ascii.eqb c (ascii_of_nat 13).

Fixpoint skip_ws (cs : list ascii) : list ascii :=
  match cs with
  | c :: r => if is_ws c then skip_ws r else cs
  | [] => []
  end.

Fixpoint strip_prefix (p cs : list ascii) : option (list ascii) :=
  match p, cs with
  | [], _ => Some cs
  | c :: p', d :: cs' => if Ascii.eqb c d then strip_prefix p' cs' else None
  | _ :: _, [] => None
  end.

(** ** Strings *)

Definition hex_value (c : ascii) : option N :=
  let k := N_of_ascii c in
  if (48 <=? k)%N && (k <? 58)%N then Some (k - 48)%N
  else if (97 <=? k)%N && (k <? 103)%N then Some (k - 87)%N
  else if (65 <=? k)%N && (k <? 71)%N then Some (k - 55)%N
  else None.

(** [\uXXXX]: a character of 8 bits, or outside the model. *)
Definition hex4 (h1 h2 h3 h4 : ascii) : option ascii :=
  d1 ← hex_value h1; d2 ← hex_value h2; d3 ← hex_value h3; d4 ← hex_value h4;
  let v := (4096 * d1 + 256 * d2 + 16 * d3 + d4)%N in
  if (v <? 256)%N then Some (ascii_of_N v) else None.

(** The single-character escapes. *)
Definition unescape (e : ascii) : option ascii :=
  if Ascii.eqb e quote_char then Some quote_char
  else if Ascii.eqb e backslash then Some backslash
  else if Ascii.eqb e "/" then Some "/"
  else if Ascii.eqb e "b" then Some (ascii_of_nat 8)
  else if Ascii.eqb e "f" then Some (ascii_of_nat 12)
  else if Ascii.eqb e "n" then Some (ascii_of_nat 10)
  else if Ascii.eqb e "r" then Some (ascii_of_nat 13)
  else if Ascii.eqb e "t" then Some (ascii_of_nat 9)
  else None.

(** The characters of a string literal after its opening quote, up to
    and without its closing quote; raw control characters are errors. *)
Fixpoint parse_string (cs : list ascii) : option (list ascii * list ascii) :=
  match cs with
  | [] => None
  | c :: r =>
      if Ascii.eqb c quote_char then Some ([], r)
      else if Ascii.eqb c backslash then
        match r with
        | e :: r' =>
            if Ascii.eqb e "u" then
              match r' with
              | h1 :: h2 :: h3 :: h4 :: r'' =>
                  c' ← hex4 h1 h2 h3 h4;
                  '(s, rest) ← parse_string r''; Some (c' :: s, rest)
              | _ => None
              end
            else
              c' ← unescape e;
              '(s, rest) ← parse_string r'; Some (c' :: s, rest)
        | [] => None
        end
      else if (N_of_ascii c <? 32)%N then None
      else '(s, rest) ← parse_string r; Some (c :: s, rest)
  end.

(** ** Numbers *)

Fixpoint span_digits (cs : list ascii) : list ascii * list ascii :=
  match cs with
  | c :: r => if is_digit c then let '(ds, rest) := span_digits r in (c :: ds, rest) else ([], cs)
  | [] => ([], [])
  end.

Definition leading_zero (ds : list ascii) : bool :=
  match ds with
  | c :: _ :: _ => Ascii.eqb c "0"
  | _ => false
  end.

(** [-]? then digits without a leading zero. *)
Definition parse_number (cs : list ascii) : option (Z * list ascii) :=
  let '(sign, body) :=
    match cs with
    | c :: r => if Ascii.eqb c "-" then ([c], r) else ([], cs)
    | [] => ([], [])
    end in
  let '(ds, rest) := span_digits body in
  if leading_zero ds then None
  else z ← string_to_integer (String.string_of_list_ascii (sign ++ ds)); Some (z, rest).

(** ** Values *)

Fixpoint parse_value (fuel : nat) (cs : list ascii) {struct fuel} : option (json * list ascii) :=
  match fuel with
  | O => None
  | S f =>
      match skip_ws cs with
      | [] => None
      | c :: r =>
          if Ascii.eqb c quote_char then '(s, r') ← parse_string r; Some (JStr (String.string_of_list_ascii s), r')
          else if Ascii.eqb c "[" then
            match skip_ws r with
            | c' :: r' =>
                if Ascii.eqb c' "]" then Some (JArr [], r')
                else '(xs, r'') ← parse_elems f r; Some (JArr xs, r'')
            | [] => None
            end
          else if Ascii.eqb c "{" then
            match skip_ws r with
            | c' :: r' =>
                if Ascii.eqb c' "}" then Some (JObj [], r')
                else '(fs, r'') ← parse_members f r; Some (JObj fs, r'')
            | [] => None
            end
          else if Ascii.eqb c "n" then r' ← strip_prefix ["u"; "l"; "l"] r; Some (JNull, r')
          else if Ascii.eqb c "t" then r' ← strip_prefix ["r"; "u"; "e"] r; Some (JBool true, r')
          else if Ascii.eqb c "f" then r' ← strip_prefix ["a"; "l"; "s"; "e"] r; Some (JBool false, r')
          else '(z, r') ← parse_number (c :: r); Some (JNum z, r')
      end
  end
(** The elements of a non-empty array, and its closing bracket. *)
with parse_elems (fuel : nat) (cs : list ascii) {struct fuel} : option (list json * list ascii) :=
  match fuel with
  | O => None
  | S f =>
      '(v, r) ← parse_value f cs;
      match skip_ws r with
      | c :: r' =>
          if Ascii.eqb c "," then '(vs, r'') ← parse_elems f r'; Some (v :: vs, r'')
          else if Ascii.eqb c "]" then Some ([v], r')
          else None
      | [] => None
      end
  end
(** The members of a non-empty object, and its closing brace. *)
with parse_members (fuel : nat) (cs : list ascii) {struct fuel}
    : option (list (string * json) * list ascii) :=
  match fuel with
  | O => None
  | S f =>
      match skip_ws cs with
      | c :: r =>
          if Ascii.eqb c quote_char then
            '(k, r1) ← parse_string r;
            match skip_ws r1 with
            | c1 :: r2 =>
                if Ascii.eqb c1 ":" then
                  '(v, r3) ← parse_value f r2;
                  match skip_ws r3 with
                  | c3 :: r4 =>
                      if Ascii.eqb c3 "," then
                        '(ms, r5) ← parse_members f r4; Some ((String.string_of_list_ascii k, v) :: ms, r5)
                      else if Ascii.eqb c3 "}" then Some ([(String.string_of_list_ascii k, v)], r4)
                      else None
                  | [] => None
                  end
                else None
            | [] => None
            end
          else None
      | [] => None
      end
  end.

Definition json_fuel (cs : list ascii) : nat := S (2 * length cs).

Definition parse_json_with (fuel : nat) (cs : list ascii) : option json :=
  '(v, rest) ← parse_value fuel cs;
  match skip_ws rest with [] => Some v | _ => None end.

(** [JSON.parse(text)]: [None] is a [SyntaxError]. *)
Definition parse_json (cs : list ascii) : option json := parse_json_with (json_fuel cs) cs.


(** ** Printing *)

Definition hex_digit (d : N) : ascii :=
  if (d <? 10)%N then ascii_of_N (48 + d) else ascii_of_N (87 + d).

Definition escape_char (c : ascii) : list ascii :=
  if Ascii.eqb c quote_char then [backslash; quote_char]
  else if Ascii.eqb c backslash then [backslash; backslash]
  else if (N_of_ascii c <? 32)%N then
    [backslash; "u"; "0"; "0"; hex_digit (N_of_ascii c / 16); hex_digit (N_of_ascii c mod 16)]
  else [c].

Definition print_string (s : string) : list ascii :=
  quote_char :: flat_map escape_char (String.list_ascii_of_string s) ++ [quote_char].

(** Items separated by commas. *)
Fixpoint commas (items : list (list ascii)) : list ascii :=
  match items with
  | [] => []
  | [x] => x
  | x :: rest => x ++ "," :: commas rest
  end.

Fixpoint print_value (v : json) : list ascii :=
  match v with
  | JNull => ["n"; "u"; "l"; "l"]
  | JBool true => ["t"; "r"; "u"; "e"]
  | JBool false => ["f"; "a"; "l"; "s"; "e"]
  | JNum z => String.list_ascii_of_string (number_to_string z)
  | JStr s => print_string s
  | JArr xs => "[" :: commas (map print_value xs) ++ ["]"]
  | JObj fs => "{" :: commas (map (fun kv => print_string kv.1 ++ ":" :: print_value kv.2) fs) ++ ["}"]
  end.

Definition print_json (v : json) : string := String.string_of_list_ascii (print_value v).

(** The fuel [parse_value] needs for a value written without whitespace:
    one per value, and one per element or member of a container. *)
Fixpoint need (v : json) : nat :=
  match v with
  | JArr xs => S (fold_right (fun x n => S (Nat.max (need x) n)) 0 xs)
  | JObj fs => S (fold_right (fun kv n => S (Nat.max (need kv.2) n)) 0 fs)
  | _ => 1
  end.

(** A position where a printed value may end: not before a digit. *)
Definition delimited (rest : list ascii) : Prop :=
  match rest with c :: _ => is_digit c = false | [] => True end.

(** ** Lemmas *)

Section JsonInd.
Variable P : json -> Prop.
Hypothesis (Hnull : P JNull) (Hbool : forall b, P (JBool b)) (Hnum : forall z, P (JNum z))
  (Hstr : forall s, P (JStr s)) (Harr : forall xs, Forall P xs -> P (JArr xs))
  (Hobj : forall fs, Forall (fun kv => P kv.2) fs -> P (JObj fs)).

(** Induction on [json] with a hypothesis for every element of an
    array and every member of an object. *)
Fixpoint json_ind' (v : json) : P v :=
  match v with
  | JNull => Hnull
  | JBool b => Hbool b
  | JNum z => Hnum z
  | JStr s => Hstr s
  | JArr xs => Harr xs ((fix go (xs : list json) : Forall P xs :=
                 match xs with [] => Forall_nil_2 _ | x :: xs => Forall_cons_2 _ _ _ (json_ind' x) (go xs) end) xs)
  | JObj fs => Hobj fs ((fix go (fs : list (string * json)) : Forall (fun kv => P kv.2) fs :=
                 match fs with [] => Forall_nil_2 _ | kv :: fs => Forall_cons_2 _ _ _ (json_ind' kv.2) (go fs) end) fs)
  end.
End JsonInd.

(** *** Characters, by computation over the 256 of them *)

Lemma parse_string_escape (c : ascii) (rest : list ascii) :
  parse_string (escape_char c ++ rest) = '(s, r) ← parse_string rest; Some (c :: s, r).
Proof. destruct c as [[] [] [] [] [] [] [] []]; reflexivity. Qed.

(** The first character of a number is not whitespace and does not
    start another kind of value. *)
Lemma parse_value_number (f : nat) (c : ascii) (r : list ascii) :
  is_digit c = true \/ c = "-" ->
  parse_value (S f) (c :: r) = '(z, r') ← parse_number (c :: r); Some (JNum z, r').
Proof.
  destruct c as [[] [] [] [] [] [] [] []]; intros [H|H]; try discriminate; reflexivity.
Qed.

Lemma digit_not_minus (c : ascii) : is_digit c = true -> Ascii.eqb c "-" = false.
Proof. destruct c as [[] [] [] [] [] [] [] []]; intros H; try discriminate; reflexivity. Qed.

Lemma digit_start (c : ascii) :
  is_digit c = true \/ c = "-" ->
  is_ws c = false /\ Ascii.eqb c "]" = false /\ Ascii.eqb c "}" = false.
Proof.
  destruct c as [[] [] [] [] [] [] [] []]; intros [H|H]; try discriminate; split_and!; reflexivity.
Qed.

(** *** Strings *)

Lemma parse_string_print (cs rest : list ascii) :
  parse_string (flat_map escape_char cs ++ quote_char :: rest) = Some (cs, rest).
Proof.
  induction cs as [|c cs IH]; [reflexivity |].
  cbn [flat_map]. rewrite <- app_assoc, parse_string_escape, IH. done.
Qed.

Lemma print_string_parse (k : string) (rest : list ascii) :
  exists r, print_string k ++ rest = quote_char :: r /\
            parse_string r = Some (String.list_ascii_of_string k, rest).
Proof.
  exists (flat_map escape_char (String.list_ascii_of_string k) ++ quote_char :: rest).
  split; [unfold print_string; simpl; by rewrite <- app_assoc | apply parse_string_print].
Qed.

(** *** Numbers *)

Lemma list_ascii_app_cons (c : ascii) (s : string) :
  String.list_ascii_of_string (String c EmptyString +:+ s) = c :: String.list_ascii_of_string s.
Proof. by rewrite string_app_cons, string_app_nil_l. Qed.

Lemma span_digits_app (ds rest : list ascii) :
  Forall (fun c => is_digit c = true) ds -> delimited rest ->
  span_digits (ds ++ rest) = (ds, rest).
Proof.
  intros Hds Hr. induction Hds as [|d ds Hd _ IH]; simpl.
  - destruct rest as [|c rest]; [done |]. simpl in *. by rewrite Hr.
  - by rewrite Hd, IH.
Qed.

Lemma leading_zero_N_to_decimal (n : N) :
  leading_zero (String.list_ascii_of_string (N_to_decimal n)) = false.
Proof.
  destruct (N_to_decimal_canonical n) as [-> | (c & s & -> & Hc)]; [done |].
  simpl. destruct s; [done |]. by apply Ascii.eqb_neq.
Qed.

(** The rendering of [z] is an optional sign and canonical digits. *)
Lemma number_to_string_shape (z : Z) :
  exists sign ds, String.list_ascii_of_string (number_to_string z) = sign ++ ds /\
    (sign = [] \/ sign = ["-"]) /\ ds <> [] /\
    Forall (fun c => is_digit c = true) ds /\ leading_zero ds = false.
Proof.
  assert (forall m, String.list_ascii_of_string (N_to_decimal m) <> []) as Hne.
  { intros m. pose proof (parse_decimal_N_to_decimal m) as Hp. by destruct (N_to_decimal m). }
  unfold number_to_string. destruct (z <? 0)%Z.
  - exists ["-"], (String.list_ascii_of_string (N_to_decimal (Z.to_N (- z)))).
    split_and!; [apply list_ascii_app_cons | by right | apply Hne |
                 apply N_to_decimal_digits | apply leading_zero_N_to_decimal].
  - exists [], (String.list_ascii_of_string (N_to_decimal (Z.to_N z))).
    split_and!; [done | by left | apply Hne | apply N_to_decimal_digits | apply leading_zero_N_to_decimal].
Qed.

Lemma parse_number_print (z : Z) (rest : list ascii) :
  delimited rest ->
  parse_number (String.list_ascii_of_string (number_to_string z) ++ rest) = Some (z, rest).
Proof.
  intros Hr. pose proof (string_to_integer_number_to_string z) as Hz.
  destruct (number_to_string_shape z) as (sign & ds & Hs & [-> | ->] & Hne & Hds & Hlz);
    rewrite Hs in *; rewrite <- (String.string_of_list_ascii_of_string (number_to_string z)), Hs in Hz.
  - destruct ds as [|d ds']; [done |]. inversion Hds as [|? ? Hd _]; subst.
    pose proof (span_digits_app (d :: ds') rest Hds Hr) as Hsp. cbn [app] in Hsp.
    unfold parse_number. cbn -[span_digits leading_zero string_to_integer].
    rewrite (digit_not_minus d Hd), Hsp, Hlz. cbn [app] in Hz |- *. by rewrite Hz.
  - unfold parse_number. cbn -[span_digits leading_zero string_to_integer].
    rewrite span_digits_app, Hlz by done. cbn [app String.string_of_list_ascii] in Hz |- *. by rewrite Hz.
Qed.

Lemma number_head (z : Z) :
  exists c t, String.list_ascii_of_string (number_to_string z) = c :: t /\ (is_digit c = true \/ c = "-").
Proof.
  destruct (number_to_string_shape z) as (sign & ds & Hs & [-> | ->] & Hne & Hds & _); rewrite Hs.
  - destruct ds as [|d ds]; [done |]. inversion Hds; subst. eauto.
  - eauto.
Qed.

(** *** Values *)

(** A printed value starts with a character that is neither whitespace
    nor a closing bracket or brace. *)
Lemma print_head (v : json) :
  exists c t, print_value v = c :: t /\
    is_ws c = false /\ Ascii.eqb c "]" = false /\ Ascii.eqb c "}" = false.
Proof.
  destruct v as [|[]|z|s|xs|fs]; try by do 2 eexists.
  destruct (number_head z) as (c & t & Ht & Hc). exists c, t. split; [done |]. by apply digit_start.
Qed.

Lemma commas_cons (p : list ascii) (ps : list (list ascii)) :
  exists tl, commas (p :: ps) = p ++ tl.
Proof. destruct ps; [exists []; by rewrite app_nil_r | by eexists]. Qed.

(** An array or an object whose first element starts the text after its
    opening bracket. *)
Lemma parse_value_array (f : nat) (T : list ascii) (c : ascii) (T' : list ascii) :
  T = c :: T' -> is_ws c = false -> Ascii.eqb c "]" = false ->
  parse_value (S f) ("[" :: T) = '(xs, r) ← parse_elems f T; Some (JArr xs, r).
Proof. intros -> Hws Hb. simpl. by rewrite Hws, Hb. Qed.

Lemma parse_value_object (f : nat) (T : list ascii) (c : ascii) (T' : list ascii) :
  T = c :: T' -> is_ws c = false -> Ascii.eqb c "}" = false ->
  parse_value (S f) ("{" :: T) = '(fs, r) ← parse_members f T; Some (JObj fs, r).
Proof. intros -> Hws Hb. simpl. by rewrite Hws, Hb. Qed.

Section RoundTrip.
(** Side conditions: fuel arithmetic and the delimiter after a value. *)
Local Ltac side := first [exact eq_refl | done | lia].

(** The round trip of one value, at every fuel it needs. *)
Definition round_trips (v : json) : Prop :=
  forall f rest, need v <= f -> delimited rest ->
  parse_value f (print_value v ++ rest) = Some (v, rest).

Lemma parse_elems_print (xs : list json) :
  Forall round_trips xs -> xs <> [] ->
  forall f rest, fold_right (fun x n => S (Nat.max (need x) n)) 0 xs <= f ->
  parse_elems f (commas (map print_value xs) ++ "]" :: rest) = Some (xs, rest).
Proof.
  induction 1 as [|x xs Hx Hxs IH]; [done |]. intros _ f rest Hf.
  destruct f as [|f]; [simpl in Hf; lia |]. simpl in Hf.
  destruct xs as [|y ys].
  - cbn [map commas parse_elems]. rewrite Hx by side. reflexivity.
  - change (commas (map print_value (x :: y :: ys)))
      with (print_value x ++ "," :: commas (map print_value (y :: ys))).
    remember (commas (map print_value (y :: ys))) as L eqn:HL.
    rewrite <- app_assoc. cbn [app parse_elems].
    rewrite Hx by side. simpl. subst L.
    rewrite (IH ltac:(done) f rest) by lia. done.
Qed.
(** One member [k: v] followed by [tail]. *)
Lemma parse_member_print (k : string) (v : json) (f : nat) (tail : list ascii) :
  round_trips v -> need v <= f -> delimited tail ->
  parse_members (S f) ((print_string k ++ ":" :: print_value v) ++ tail) =
  match skip_ws tail with
  | c3 :: r4 =>
      if Ascii.eqb c3 "," then
        '(ms, r5) ← parse_members f r4; Some ((k, v) :: ms, r5)
      else if Ascii.eqb c3 "}" then Some ([(k, v)], r4)
      else None
  | [] => None
  end.
Proof.
  intros Hv Hf Ht. rewrite <- app_assoc. cbn [app].
  destruct (print_string_parse k (":" :: print_value v ++ tail)) as (r & -> & Hr).
  remember (print_value v ++ tail) as L eqn:HL.
  simpl. rewrite Hr. simpl. subst L. rewrite Hv by done. simpl.
  by rewrite String.string_of_list_ascii_of_string.
Qed.

Lemma parse_members_print (fs : list (string * json)) :
  Forall (fun kv => round_trips kv.2) fs -> fs <> [] ->
  forall f rest, fold_right (fun kv n => S (Nat.max (need kv.2) n)) 0 fs <= f ->
  parse_members f (commas (map (fun kv => print_string kv.1 ++ ":" :: print_value kv.2) fs)
                   ++ "}" :: rest) = Some (fs, rest).
Proof.
  induction 1 as [|[k v] fs Hv Hfs IH]; [done |]. intros _ f rest Hf.
  destruct f as [|f]; [simpl in Hf; lia |]. simpl in Hf.
  destruct fs as [|kv' fs].
  - cbn [map commas fst snd] in Hv |- *. rewrite parse_member_print by side. reflexivity.
  - change (commas (map (fun kv => print_string kv.1 ++ ":" :: print_value kv.2) ((k, v) :: kv' :: fs)))
      with ((print_string k ++ ":" :: print_value v) ++ "," ::
            commas (map (fun kv => print_string kv.1 ++ ":" :: print_value kv.2) (kv' :: fs))).
    remember (commas (map (fun kv => print_string kv.1 ++ ":" :: print_value kv.2) (kv' :: fs))) as L.
    rewrite <- app_assoc. cbn [app fst snd] in Hv |- *. rewrite parse_member_print by side.
    simpl. subst L. rewrite (IH ltac:(done) f rest) by lia. done.
Qed.

Lemma print_value_round_trips (v : json) : round_trips v.
Proof.
  induction v as [| b | z | s | xs IH | fs IH] using json_ind';
    intros [|f] rest Hf Hr; simpl in Hf; try lia.
  - reflexivity.
  - by destruct b.
  - destruct (number_head z) as (c & t & Ht & Hc). cbn [print_value]. rewrite Ht.
    cbn [app]. rewrite parse_value_number by done. rewrite (app_comm_cons t rest c), <- Ht.
    by rewrite parse_number_print.
  - cbn [print_value]. destruct (print_string_parse s rest) as (r & -> & Hs).
    simpl. rewrite Hs. simpl. by rewrite String.string_of_list_ascii_of_string.
  - destruct xs as [|x xs]; [reflexivity |].
    destruct (print_head x) as (c & t & Hct & Hws & Hb & _).
    destruct (commas_cons (print_value x) (map print_value xs)) as [tl Htl].
    cbn [print_value]. rewrite <- app_comm_cons, <- app_assoc. cbn [app].
    rewrite (parse_value_array f _ c (t ++ tl ++ "]" :: rest)); [| | done | done].
    + by rewrite (parse_elems_print (x :: xs) IH ltac:(done) f rest) by (simpl in Hf |- *; lia).
    + cbn [map]. rewrite Htl, Hct. simpl. by rewrite <- app_assoc.
  - destruct fs as [|[k v] fs]; [reflexivity |].
    destruct (commas_cons (print_string k ++ ":" :: print_value v)
                (map (fun kv => print_string kv.1 ++ ":" :: print_value kv.2) fs)) as [tl Htl].
    cbn [print_value]. rewrite <- app_comm_cons, <- app_assoc. cbn [app].
    rewrite (parse_value_object f _ quote_char
               (flat_map escape_char (String.list_ascii_of_string k) ++ quote_char :: ":" ::
                print_value v ++ tl ++ "}" :: rest)); [| | done | done].
    + by rewrite (parse_members_print ((k, v) :: fs) IH ltac:(done) f rest) by (simpl in Hf |- *; lia).
    + cbn [map fst snd]. rewrite Htl. unfold print_string. simpl. by rewrite <- !app_assoc.
Qed.
End RoundTrip.

Lemma fold_need_commas {A} (g : A -> nat) (p : A -> list ascii) (l : list A) :
  Forall (fun a => g a <= length (p a)) l ->
  fold_right (fun a n => S (Nat.max (g a) n)) 0 l <= length (commas (map p l)) + 1.
Proof.
  induction 1 as [|a l Ha Hl IH]; simpl; [lia |].
  destruct l as [|b l]; simpl in *; [lia |].
  rewrite length_app. simpl. lia.
Qed.

(** A value printed without whitespace needs no more fuel than its
    length. *)
Lemma need_le_length (v : json) : need v <= length (print_value v).
Proof.
  induction v as [| b | z | s | xs IH | fs IH] using json_ind'.
  - simpl. lia.
  - destruct b; simpl; lia.
  - simpl. destruct (number_head z) as (c & t & -> & _). simpl. lia.
  - simpl. unfold print_string. simpl. lia.
  - simpl. rewrite length_app. simpl. pose proof (fold_need_commas need print_value xs IH). lia.
  - cbn [need print_value length]. rewrite length_app. cbn [length].
    enough (fold_right (fun kv n => S (Nat.max (need kv.2) n)) 0 fs <=
            length (commas (map (fun kv => print_string kv.1 ++ ":" :: print_value kv.2) fs)) + 1)
      by lia.
    apply fold_need_commas. eapply Forall_impl; [exact IH |].
    intros [k v] Hv. simpl in *. rewrite length_app. simpl. lia.
Qed.

(** The parser reads back the characters the printer writes. *)
Lemma parse_print_value (v : json) : parse_json (print_value v) = Some v.
Proof.
  unfold parse_json, parse_json_with.
  pose proof (print_value_round_trips v (json_fuel (print_value v)) []
                ltac:(unfold json_fuel; pose proof (need_le_length v); lia) I) as Hv.
  rewrite app_nil_r in Hv. by rewrite Hv.
Qed.


(** *** Fuel *)

(** Replace each recursive call made at fuel [f] by the same call at
    [f'], given that calls at [f'] extend those at [f]. *)
Local Ltac mono_calls f Hv He Hm :=
  repeat match goal with
  | |- context [parse_value f ?x] =>
      let E := fresh "E" in
      destruct (parse_value f x) as [[? ?]|] eqn:E; [rewrite (Hv _ _ E) |]
  | |- context [parse_elems f ?x] =>
      let E := fresh "E" in
      destruct (parse_elems f x) as [[? ?]|] eqn:E; [rewrite (He _ _ E) |]
  | |- context [parse_members f ?x] =>
      let E := fresh "E" in
      destruct (parse_members f x) as [[? ?]|] eqn:E; [rewrite (Hm _ _ E) |]
  end.

(** More fuel never changes a result. *)
Lemma parse_mono (f : nat) : forall f', f <= f' ->
  (forall cs res, parse_value f cs = Some res -> parse_value f' cs = Some res) /\
  (forall cs res, parse_elems f cs = Some res -> parse_elems f' cs = Some res) /\
  (forall cs res, parse_members f cs = Some res -> parse_members f' cs = Some res).
Proof.
  induction f as [|f IH]; intros f' Hf; [split_and!; discriminate |].
  destruct f' as [|f']; [lia |]. destruct (IH f' ltac:(lia)) as (Hv & He & Hm).
  split_and!; intros cs res; cbn [parse_value parse_elems parse_members];
    repeat first [progress (mono_calls f Hv He Hm) | case_match
                 | match goal with
                   | |- context [parse_string ?x] => destruct (parse_string x) eqn:?
                   | |- context [strip_prefix ?p ?x] => destruct (strip_prefix p x) eqn:?
                   | |- context [parse_number ?x] => destruct (parse_number x) eqn:?
                   end
                 | progress cbn [mbind option_bind]];
    first [intros Hx; discriminate Hx | auto].
Qed.

(** *** Consumption *)

Lemma skip_ws_len (x y : list ascii) : skip_ws x = y -> length y <= length x.
Proof. intros <-. induction x as [|c x IH]; simpl; [lia | case_if; simpl; lia]. Qed.

Lemma parse_string_len (x s y : list ascii) : parse_string x = Some (s, y) -> length y < length x.
Proof.
  revert s. induction x as [x IH] using (induction_ltof1 _ (@length _)); unfold ltof in IH.
  intros s. destruct x as [|c r]; [discriminate |]. simpl.
  case_if; [intros [= _ <-]; simpl; lia |].
  case_if; [| case_if; [discriminate |]].
  - destruct r as [|e r']; [discriminate |]. case_if.
    + destruct r' as [|h1 [|h2 [|h3 [|h4 r'']]]]; try discriminate.
      destruct (hex4 h1 h2 h3 h4); [| discriminate]. simpl.
      destruct (parse_string r'') as [[s' y']|] eqn:Hp; [| discriminate]. simpl. intros [= _ <-].
      apply IH in Hp; simpl; lia.
    + destruct (unescape e); [| discriminate]. simpl.
      destruct (parse_string r') as [[s' y']|] eqn:Hp; [| discriminate]. simpl. intros [= _ <-].
      apply IH in Hp; simpl; lia.
  - destruct (parse_string r) as [[s' y']|] eqn:Hp; [| discriminate]. simpl. intros [= _ <-].
    apply IH in Hp; simpl; lia.
Qed.

Lemma strip_prefix_len (p x y : list ascii) : strip_prefix p x = Some y -> length y <= length x.
Proof.
  revert x. induction p as [|c p IH]; intros [|d x] H; simpl in H; simplify_eq/=; try lia.
  destruct (Ascii.eqb c d); [apply IH in H; lia | discriminate].
Qed.

Lemma span_digits_split (x ds y : list ascii) : span_digits x = (ds, y) -> x = ds ++ y.
Proof.
  revert ds y. induction x as [|c x IH]; intros ds y H; simpl in H.
  - by injection H as <- <-.
  - destruct (is_digit c).
    + specialize (IH _ _ (surjective_pairing _)).
      destruct (span_digits x) as [ds' y']. injection H as <- <-. simpl in *. by rewrite IH at 1.
    + by injection H as <- <-.
Qed.

(** A number has at least one digit. *)
Lemma parse_number_len (x y : list ascii) (z : Z) : parse_number x = Some (z, y) -> length y < length x.
Proof.
  unfold parse_number. intros H.
  assert (exists sign body, (match x with
            | c :: r => if Ascii.eqb c "-" then ([c], r) else ([], x)
            | [] => ([], []) end) = (sign, body) /\ length sign + length body = length x
            /\ (sign = [] \/ sign = ["-"])) as (sign & body & Hsb & Hb & Hsign).
  { destruct x as [|c r]; [by exists [], [] |].
    destruct (Ascii.eqb_spec c "-") as [-> | Hc]; eexists _, _; split_and!; try done; simpl; auto. }
  rewrite Hsb in H. destruct (span_digits body) as [ds rest] eqn:Hs.
  apply span_digits_split in Hs as ->.
  destruct (leading_zero ds); [discriminate |].
  destruct (string_to_integer _) eqn:Hz; [| discriminate]. simpl in H. injection H as _ <-.
  rewrite length_app in Hb. destruct ds; [| simpl in *; lia].
  destruct Hsign as [-> | ->]; discriminate.
Qed.

(** Split a hypothesis-side parse at fuel [f] into its steps: every
    test, every helper call and every recursive call at [f]. *)
Local Ltac peel f :=
  repeat first
    [ case_match
    | match goal with
      | |- context [parse_value f ?x] => destruct (parse_value f x) as [[? ?]|] eqn:?
      | |- context [parse_elems f ?x] => destruct (parse_elems f x) as [[? ?]|] eqn:?
      | |- context [parse_members f ?x] => destruct (parse_members f x) as [[? ?]|] eqn:?
      | |- context [parse_string ?x] => destruct (parse_string x) as [[? ?]|] eqn:?
      | |- context [strip_prefix ?p ?x] => destruct (strip_prefix p x) eqn:?
      | |- context [parse_number ?x] => destruct (parse_number x) as [[? ?]|] eqn:?
      end
    | progress cbn [mbind option_bind] ].

(** Collect the length facts of the steps of a parse. *)
Local Ltac lengths Cv Ce Cm :=
  repeat match goal with
  | H : skip_ws _ = _ |- _ => apply skip_ws_len in H
  | H : parse_string _ = Some _ |- _ => apply parse_string_len in H
  | H : strip_prefix _ _ = Some _ |- _ => apply strip_prefix_len in H
  | H : parse_number _ = Some _ |- _ => apply parse_number_len in H
  | H : parse_value _ _ = Some (_, _) |- _ => apply Cv in H
  | H : parse_elems _ _ = Some (_, _) |- _ => apply Ce in H
  | H : parse_members _ _ = Some (_, _) |- _ => apply Cm in H
  end; simpl in *.

(** Each parse consumes at least one character. *)
Lemma parse_consumes (f : nat) :
  (forall cs v r, parse_value f cs = Some (v, r) -> length r < length cs) /\
  (forall cs xs r, parse_elems f cs = Some (xs, r) -> length r < length cs) /\
  (forall cs ms r, parse_members f cs = Some (ms, r) -> length r < length cs).
Proof.
  induction f as [|f (Cv & Ce & Cm)]; [split_and!; discriminate |].
  split_and!; intros cs a r; cbn [parse_value parse_elems parse_members]; peel f;
    intros Hx; simplify_eq; lengths Cv Ce Cm; lia.
Qed.

(** Replay, at fuel [S N], the steps of a parse peeled at fuel [S f]. *)
Local Ltac replay f N IHv IHe IHm Cv Ce Cm :=
  repeat first
    [ match goal with
      | H : skip_ws ?x = _ |- context [skip_ws ?x] => rewrite H
      | H : Ascii.eqb ?a ?b = _ |- context [Ascii.eqb ?a ?b] => rewrite H
      | H : parse_string ?x = _ |- context [parse_string ?x] => rewrite H
      | H : strip_prefix ?p ?x = _ |- context [strip_prefix ?p ?x] => rewrite H
      | H : parse_number ?x = _ |- context [parse_number ?x] => rewrite H
      | H : parse_value f ?x = Some (?a, ?b) |- context [parse_value N ?x] =>
          rewrite (IHv x a b N H) by (lengths Cv Ce Cm; lia)
      | H : parse_elems f ?x = Some (?a, ?b) |- context [parse_elems N ?x] =>
          rewrite (IHe x a b N H) by (lengths Cv Ce Cm; lia)
      | H : parse_members f ?x = Some (?a, ?b) |- context [parse_members N ?x] =>
          rewrite (IHm x a b N H) by (lengths Cv Ce Cm; lia)
      end
    | progress cbn [mbind option_bind] ].

(** A parse that succeeds needs no more fuel than twice the number of
    characters it consumes. *)
Lemma parse_needs (f : nat) :
  (forall cs v r N, parse_value f cs = Some (v, r) ->
     2 * (length cs - length r) <= N -> parse_value N cs = Some (v, r)) /\
  (forall cs xs r N, parse_elems f cs = Some (xs, r) ->
     2 * (length cs - length r) <= N -> parse_elems N cs = Some (xs, r)) /\
  (forall cs ms r N, parse_members f cs = Some (ms, r) ->
     2 * (length cs - length r) <= N -> parse_members N cs = Some (ms, r)).
Proof.
  induction f as [|f (IHv & IHe & IHm)]; [split_and!; discriminate |].
  destruct (parse_consumes f) as (Cv & Ce & Cm).
  destruct (parse_consumes (S f)) as (Cv' & Ce' & Cm').
  split_and!; intros cs a r N H HN;
    [pose proof (Cv' _ _ _ H) | pose proof (Ce' _ _ _ H) | pose proof (Cm' _ _ _ H)];
    (destruct N as [|N]; [lia |]); revert H;
    cbn [parse_value parse_elems parse_members]; peel f; intros Hx; simplify_eq;
    replay f N IHv IHe IHm Cv Ce Cm; done.
Qed.

(** The fuel [json_fuel cs] is enough: any larger fuel gives the same
    result on every text, accepted or rejected. *)
Theorem parse_json_fuel (f : nat) (cs : list ascii) :
  json_fuel cs <= f -> parse_json_with f cs = parse_json cs.
Proof.
  intros Hf. unfold parse_json, parse_json_with.
  destruct (parse_value (json_fuel cs) cs) as [[v r]|] eqn:Hv.
  - by rewrite (proj1 (parse_mono _ f Hf) _ _ Hv).
  - destruct (parse_value f cs) as [[v r]|] eqn:Hv'; [| done].
    rewrite (proj1 (parse_needs f) _ _ _ (json_fuel cs) Hv') in Hv; [discriminate |].
    unfold json_fuel. lia.
Qed.
