(* ===== verification/ImgTypes.v ===== *)
(** * [PicsumImage]: the record type of the image list

    [images.ts] types its collection as [PicsumImage[]], imported from
    [@/types/imgTypes], a file of the repository outside the sources
    given here.  The type follows the Picsum list endpoint: an
    identifier, the author, the dimensions and two URLs.  TypeScript
    types are erased: at run time the collection is whatever JSON the
    server sent.  [encode_image] is the JSON object of a record, and
    [decode_image] reads a record back from a JSON value when it has the
    expected shape; the typed view of the collection is [decode_images]. *)

From S2P Require Import Prelude JsValue.

Record PicsumImage := mkPicsumImage {
  img_id : string;
  author : string;
  width : Z;
  height : Z;
  url : string;
  download_url : string
}.

Definition encode_image (i : PicsumImage) : json :=
  JObj [("id", JStr (img_id i)); ("author", JStr (author i));
        ("width", JNum (width i)); ("height", JNum (height i));
        ("url", JStr (url i)); ("download_url", JStr (download_url i))].

Definition as_string (v : json) : option string :=
  match v with JStr s => Some s | _ => None end.

Definition as_number (v : json) : option Z :=
  match v with JNum n => Some n | _ => None end.

(** A JSON value is a [PicsumImage] when it is an object whose members
    (the last occurrence of each) have the right types; extra members
    are allowed. *)
Definition decode_image (v : json) : option PicsumImage :=
  match v with
  | JObj fs =>
      i ← obj_get fs "id" ≫= as_string;
      a ← obj_get fs "author" ≫= as_string;
      wd ← obj_get fs "width" ≫= as_number;
      h ← obj_get fs "height" ≫= as_number;
      u ← obj_get fs "url" ≫= as_string;
      d ← obj_get fs "download_url" ≫= as_string;
      Some (mkPicsumImage i a wd h u d)
  | _ => None
  end.

Definition decode_images (v : json) : option (list PicsumImage) :=
  match v with
  | JArr xs => mapM decode_image xs
  | _ => None
  end.

(** ** Lemmas *)

Lemma decode_encode_image (i : PicsumImage) : decode_image (encode_image i) = Some i.
Proof. by destruct i. Qed.

Lemma decode_encode_images (l : list PicsumImage) :
  decode_images (JArr (map encode_image l)) = Some l.
Proof.
  simpl. apply mapM_Some_2. induction l as [|i l IH]; constructor; [|done].
  apply decode_encode_image.
Qed.

(** A well-typed element has a string [id]: reading it does not throw. *)
Lemma decode_image_get_id (v : json) (i : PicsumImage) :
  decode_image v = Some i -> get_id v = Normal (Some (JStr (img_id i))).
Proof.
  destruct v as [| | | | |fs]; try discriminate. simpl.
  destruct (obj_get fs "id") as [[| | |s| |]|]; try discriminate. simpl.
  repeat match goal with
  | |- context [obj_get fs ?k ≫= ?f] => destruct (obj_get fs k ≫= f); [simpl | discriminate]
  end.
  by intros [= <-].
Qed.
