(* ===== verification/Async.v ===== *)
(** * Async functions as resumable programs

    An [async] function of JavaScript runs synchronously until its first
    [await], then suspends; each settlement of an awaited promise resumes
    it until the next [await] or the end.  [proc W R A] is such a
    function as a tree: [Act] is a synchronous update of the world [W]
    (an assignment to a store field, a [console] call), [AwaitFetch] and
    [AwaitJson] are the two kinds of [await] of [fetchImages] ([fetch(url)]
    and [response.json()], whose responses have type [R]), and [Done] and
    [Throw] are normal and abrupt ends.  [try_catch] and [try_finally] are
    the statements [try/catch] and [try/finally].

    Two semantics are given: [run] executes a program to its end against a
    list of settlements (the sequential view), and [run_sync] executes the
    synchronous segment up to the next suspension (the view of the event
    loop, EventLoop.v).  [run_resume] ties them together. *)

From S2P Require Import Prelude JsValue.

(** The settlement of a promise. *)
Inductive settled (A : Type) : Type :=
| Fulfilled (a : A)
| Rejected (e : js_throw).
Arguments Fulfilled {A} a.
Arguments Rejected {A} e.

Section Proc.
Context {W R : Type}.

Inductive proc (A : Type) : Type :=
| Done (a : A)
| Throw (e : js_throw)
| Act (f : W -> W) (k : proc A)
| AwaitFetch (url : string) (k : settled R -> proc A)
| AwaitJson (resp : R) (k : settled json -> proc A).

Arguments Done {A} a.
Arguments Throw {A} e.
Arguments Act {A} f k.
Arguments AwaitFetch {A} url k.
Arguments AwaitJson {A} resp k.

Fixpoint bind {A B} (p : proc A) (k : A -> proc B) : proc B :=
  match p with
  | Done a => k a
  | Throw e => Throw e
  | Act f p' => Act f (bind p' k)
  | AwaitFetch u c => AwaitFetch u (fun s => bind (c s) k)
  | AwaitJson r c => AwaitJson r (fun s => bind (c s) k)
  end.

(** [try { p } catch (e) { h(e) }] *)
Fixpoint try_catch {A} (p : proc A) (h : js_throw -> proc A) : proc A :=
  match p with
  | Done a => Done a
  | Throw e => h e
  | Act f p' => Act f (try_catch p' h)
  | AwaitFetch u c => AwaitFetch u (fun s => try_catch (c s) h)
  | AwaitJson r c => AwaitJson r (fun s => try_catch (c s) h)
  end.

(** [try { p } finally { fin }]: [fin] runs after [p] ends either way;
    if [fin] ends normally the completion of [p] is kept, if it throws
    its exception replaces that completion. *)
Fixpoint try_finally {A} (p : proc A) (fin : proc unit) : proc A :=
  match p with
  | Done a => bind fin (fun _ => Done a)
  | Throw e => bind fin (fun _ => Throw e)
  | Act f p' => Act f (try_finally p' fin)
  | AwaitFetch u c => AwaitFetch u (fun s => try_finally (c s) fin)
  | AwaitJson r c => AwaitJson r (fun s => try_finally (c s) fin)
  end.

(** A synchronous update of the world. *)
Definition act (f : W -> W) : proc unit := Act f (Done tt).

(** [await p]: a fulfilled promise gives its value, a rejected one
    throws its reason at the [await]. *)
Definition resume_with {A} (s : settled A) : proc A :=
  match s with
  | Fulfilled a => Done a
  | Rejected e => Throw e
  end.

Definition await_fetch (url : string) : proc R := AwaitFetch url resume_with.
Definition await_json (resp : R) : proc json := AwaitJson resp resume_with.

(** ** Sequential semantics *)

(** What the environment answers at an [await]. *)
Inductive answer : Type :=
| AnsFetch (s : settled R)
| AnsJson (s : settled json).

(** [run p ans w]: the final world, the unused answers and the
    completion; [None] when an answer does not fit the [await] it is
    given to, or when the answers run out. *)
Fixpoint run {A} (p : proc A) (ans : list answer) (w : W)
  : option (W * list answer * completion A) :=
  match p with
  | Done a => Some (w, ans, Normal a)
  | Throw e => Some (w, ans, Abrupt e)
  | Act f k => run k ans (f w)
  | AwaitFetch _ k =>
      match ans with AnsFetch s :: rest => run (k s) rest w | _ => None end
  | AwaitJson _ k =>
      match ans with AnsJson s :: rest => run (k s) rest w | _ => None end
  end.

(** [run_obs p ans w]: the worlds right after each update of the run, in
    order, which is what code that runs synchronously inside an update
    (a watcher flushed with ['sync']) can observe. *)
Fixpoint run_obs {A} (p : proc A) (ans : list answer) (w : W) : list W :=
  match p with
  | Done _ | Throw _ => []
  | Act f k => f w :: run_obs k ans (f w)
  | AwaitFetch _ k =>
      match ans with AnsFetch s :: rest => run_obs (k s) rest w | _ => [] end
  | AwaitJson _ k =>
      match ans with AnsJson s :: rest => run_obs (k s) rest w | _ => [] end
  end.

(** ** The synchronous segment *)

(** [run_sync p w] executes the updates up to the next suspension or the
    end; the program it returns is never an [Act]. *)
Fixpoint run_sync {A} (p : proc A) (w : W) : W * proc A :=
  match p with
  | Act f k => run_sync k (f w)
  | _ => (w, p)
  end.

Definition suspended {A} (p : proc A) : bool :=
  match p with AwaitFetch _ _ | AwaitJson _ _ => true | _ => false end.
End Proc.

Arguments proc : clear implicits.
Arguments answer : clear implicits.
Arguments Done {W R A} a.
Arguments Throw {W R A} e.
Arguments Act {W R A} f k.
Arguments AwaitFetch {W R A} url k.
Arguments AwaitJson {W R A} resp k.

#[export] Instance proc_ret {W R} : MRet (proc W R) := fun A a => Done a.
#[export] Instance proc_bind {W R} : MBind (proc W R) := fun A B k p => bind p k.

(** ** Laws *)

Section Laws.
Context {W R : Type}.
Implicit Types (w : W) (ans : list (answer R)).

(** Induction over a program for an equation about [run]: the [await]
    cases split on the next answer. *)
Local Ltac induction_run p :=
  induction p as [a|e|f p IH|u c IH|r c IH]; intros ans w; simpl; try done;
  try destruct ans as [|[s|s] ans]; simpl; auto.

(** The result of [run] after a step that did not end the program. *)
Definition run_then {A B} (r : option (W * list (answer R) * completion A))
    (k : A -> W -> list (answer R) -> option (W * list (answer R) * completion B))
  : option (W * list (answer R) * completion B) :=
  match r with
  | Some (w', ans', Normal a) => k a w' ans'
  | Some (w', ans', Abrupt e) => Some (w', ans', Abrupt e)
  | None => None
  end.

Lemma run_bind {A B} (p : proc W R A) (k : A -> proc W R B) ans w :
  run (bind p k) ans w = run_then (run p ans w) (fun a w' ans' => run (k a) ans' w').
Proof.
  revert ans w. induction_run p.
Qed.

Lemma run_try_catch {A} (p : proc W R A) (h : js_throw -> proc W R A) ans w :
  run (try_catch p h) ans w =
  match run p ans w with
  | Some (w', ans', Abrupt e) => run (h e) ans' w'
  | r => r
  end.
Proof.
  revert ans w. induction_run p.
Qed.

Lemma run_try_finally {A} (p : proc W R A) (fin : proc W R unit) ans w :
  run (try_finally p fin) ans w =
  match run p ans w with
  | Some (w', ans', c) =>
      run_then (run fin ans' w') (fun _ w'' ans'' => Some (w'', ans'', c))
  | None => None
  end.
Proof.
  revert ans w. induction p as [a|e|f p IH|u c IH|r c IH]; intros ans w; simpl.
  - by rewrite run_bind.
  - by rewrite run_bind.
  - apply IH.
  - destruct ans as [|[s|s] ans]; simpl; auto.
  - destruct ans as [|[s|s] ans]; simpl; auto.
Qed.

Lemma run_act (f : W -> W) ans w : run (act f) ans w = Some (f w, ans, Normal tt).
Proof. reflexivity. Qed.

(** Running to the end is running the synchronous segment, then the
    rest from where it suspended. *)
Lemma run_resume {A} (p : proc W R A) ans w :
  run p ans w = run (run_sync p w).2 ans (run_sync p w).1.
Proof. revert w. induction p; intros w; simpl; auto. Qed.

Lemma run_sync_not_act {A} (p : proc W R A) w :
  match (run_sync p w).2 with Act _ _ => False | _ => True end.
Proof. revert w. induction p as [| |f p IH| |]; intros w; simpl; [done | done | apply IH | done | done]. Qed.
End Laws.

#[export] Hint Rewrite @run_bind @run_try_catch @run_try_finally @run_act : carousel.
