(* ===== verification/FetchApi.v ===== *)
(** * What the store relies on from the Fetch API

    [fetchImages] reads two attributes of the [Response] that [fetch]
    fulfils with: [response.ok] and [response.status].  The class
    [FetchResponse] states what the Fetch standard promises about them:
    [ok] holds exactly for an ok status (200 to 299).  The store
    (Store.v) and the event loop (EventLoop.v) are proved against this
    interface; [Response] below is a concrete implementation, used by
    the examples, and its instance discharges the law.  Statuses of
    responses are in [0 .. 999] (the Fetch standard's "status" is an
    integer in that range); [status_in_range] names that bound. *)

From S2P Require Import Prelude.

Class FetchResponse (R : Type) := {
  resp_status : R -> Z;
  resp_ok : R -> bool;
  resp_ok_spec : forall r, resp_ok r = true <-> (200 <= resp_status r <= 299)%Z
}.

Definition status_in_range `{FetchResponse R} (r : R) : Prop :=
  (0 <= resp_status r <= 999)%Z.

(** ** A concrete response *)

(** The attributes the store reads; [resp_url] is the final URL. *)
Record Response := mkResponse {
  response_url : string;
  response_status : Z
}.

(** The [ok] getter: "return true if this's response's status is an ok
    status", i.e. in the range 200 to 299. *)
Definition response_ok (r : Response) : bool :=
  (200 <=? response_status r)%Z && (response_status r <=? 299)%Z.

Lemma response_ok_spec (r : Response) :
  response_ok r = true <-> (200 <= response_status r <= 299)%Z.
Proof. unfold response_ok. by rewrite andb_true_iff, !Z.leb_le. Qed.

#[export] Instance Response_fetch : FetchResponse Response := {
  resp_status := response_status;
  resp_ok := response_ok;
  resp_ok_spec := response_ok_spec
}.

(** A status outside [200 .. 299] is not ok. *)
Lemma resp_ok_false `{FetchResponse R} (r : R) :
  resp_ok r = false <-> (resp_status r < 200 \/ 299 < resp_status r)%Z.
Proof.
  rewrite <- not_true_iff_false, resp_ok_spec. split; intros; lia.
Qed.
