(* ===== verification/Store.v ===== *)
(** * The images store: [useImagesStore] of src/src/store/images.ts

    The store's state is the record [store] of its three refs ([images],
    [loading], [error]); the world a call acts on adds the [console] that
    [console.error] writes to.  [fetchImages] is the [async] function
    written as a [proc] (Async.v) over that world, statement by statement;
    [getImageById] is the synchronous lookup.

    The abstract contract of [fetchImages] is [apply_result]: the network
    produces an outcome ([net_outcome]), the outcome determines a result
    ([outcome_result], success with data or failure with a thrown value),
    and the result determines the new state.  [fetchImages_refines] and
    [fetchImages_complete] show that running the code is exactly that. *)

From S2P Require Import Prelude JsValue JsNumber ImgTypes Async FetchApi.

Section ImagesStore.
Context `{FetchResponse R}.

(** ** State *)

(** [const images = ref<PicsumImage[]>([])], [const loading = ref(false)],
    [const error = ref<string | null>(null)].  [images] holds whatever
    [response.json()] produced: the code does not check its shape. *)
Record store := mkStore {
  images : json;
  loading : bool;
  error : option string
}.

Definition initial_store : store :=
  {| images := JArr []; loading := false; error := None |}.

(** The world of a call: the store and the lines written by
    [console.error], each a label and the logged value. *)
Record world := mkWorld {
  st : store;
  console : list (string * js_throw)
}.

Definition set_images (d : json) (w : world) : world :=
  {| st := {| images := d; loading := loading (st w); error := error (st w) |};
     console := console w |}.

Definition set_loading (b : bool) (w : world) : world :=
  {| st := {| images := images (st w); loading := b; error := error (st w) |};
     console := console w |}.

Definition set_error (e : option string) (w : world) : world :=
  {| st := {| images := images (st w); loading := loading (st w); error := e |};
     console := console w |}.

Definition console_error (label : string) (err : js_throw) (w : world) : world :=
  {| st := st w; console := console w ++ [(label, err)] |}.

(** ** [fetchImages] *)

Definition picsum_list_url : string := "https://picsum.photos/v2/list".

(** [`HTTP error! status: ${response.status}`] *)
Definition http_error_message (status : Z) : string :=
  "HTTP error! status: " +:+ number_to_string status.

(** [new Error(message)] *)
Definition new_error (message : string) : js_throw := JsError "Error" message.

(** [err instanceof Error ? err.message : 'Failed to fetch images'] *)
Definition catch_message (err : js_throw) : string :=
  match err with
  | JsError _ message => message
  | NonError _ => "Failed to fetch images"
  end.

(** [images.value = data] (line 22). *)
Definition store_data (data : json) : proc world R unit :=
  act (set_images data).

(** The [try] block after [await fetch(...)] has given [response]: the
    [ok] check, [await response.json()] and the assignment. *)
Definition fetch_after_response (response : R) : proc world R unit :=
  (if negb (resp_ok response)
   then Throw (new_error (http_error_message (resp_status response)))
   else mret tt) ;;
  data ← await_json response;
  store_data data.

(** The body of the [try] block. *)
Definition fetch_try_block : proc world R unit :=
  response ← await_fetch picsum_list_url;
  fetch_after_response response.

(** The [catch (err)] block. *)
Definition fetch_catch_block (err : js_throw) : proc world R unit :=
  act (set_error (Some (catch_message err))) ;;
  act (console_error "Error fetching images:" err).

(** [try { body } catch (err) { ... } finally { loading.value = false }] *)
Definition fetch_handlers (body : proc world R unit) : proc world R unit :=
  try_finally
    (try_catch body fetch_catch_block)
    (act (set_loading false)).

Definition fetchImages : proc world R unit :=
  act (set_loading true) ;;
  act (set_error None) ;;
  fetch_handlers fetch_try_block.

(** ** [getImageById] *)

(** [image => image.id === id] *)
Definition id_matches (id : string) (image : json) : completion bool :=
  match get_id image with
  | Normal v => Normal (strict_eq_str v id)
  | Abrupt e => Abrupt e
  end.

(** [images.value.find((image) => image.id === id)] *)
Definition getImageById (s : store) (id : string) : completion (option json) :=
  array_find (images s) (id_matches id).

(** ** The abstract contract of [fetchImages] *)

(** What the network does with the request: [fetch] rejects, or it
    fulfils with a response, and then [response.json()] settles (its
    settlement is only consumed when the response is ok). *)
Inductive net_outcome : Type :=
| NetFail (e : js_throw)
| NetResponse (r : R) (body : settled json).

Definition answers_of (o : net_outcome) : list (answer R) :=
  match o with
  | NetFail e => [AnsFetch (Rejected e)]
  | NetResponse r body =>
      AnsFetch (Fulfilled r) :: (if resp_ok r then [AnsJson body] else [])
  end.

(** The result type of the design: success with the data, or failure
    with the thrown value. *)
Inductive fetch_result : Type :=
| FetchSuccess (data : json)
| FetchFailure (err : js_throw).

Definition outcome_result (o : net_outcome) : fetch_result :=
  match o with
  | NetFail e => FetchFailure e
  | NetResponse r body =>
      if resp_ok r then
        match body with
        | Fulfilled d => FetchSuccess d
        | Rejected e => FetchFailure e
        end
      else FetchFailure (new_error (http_error_message (resp_status r)))
  end.

(** The state after a completed fetch: on success the collection is
    replaced and the error is [null]; on failure the collection is kept,
    the message is recorded and the error is logged; [loading] is
    [false] either way. *)
Definition apply_result (w : world) (res : fetch_result) : world :=
  match res with
  | FetchSuccess d =>
      {| st := {| images := d; loading := false; error := None |};
         console := console w |}
  | FetchFailure err =>
      {| st := {| images := images (st w); loading := false;
                  error := Some (catch_message err) |};
         console := console w ++ [("Error fetching images:", err)] |}
  end.
(** ** Resumptions of [fetchImages] *)

(** [fetchImages] resumed by the settlement of its [fetch] promise: the
    [await] gives the response or throws, inside the handlers. *)
Definition fetch_resume (s : settled R) : proc world R unit :=
  fetch_handlers (resume_with s ≫= fetch_after_response).

(** [fetchImages] suspended at [await fetch(...)]. *)
Definition fetch_suspended : proc world R unit :=
  AwaitFetch picsum_list_url fetch_resume.

(** [fetchImages] resumed by the settlement of [response.json()]. *)
Definition json_resume (r : R) (s : settled json) : proc world R unit :=
  fetch_handlers (resume_with s ≫= store_data).

(** [fetchImages] suspended at [await response.json()]. *)
Definition json_suspended (r : R) : proc world R unit :=
  AwaitJson r (json_resume r).

(** The world after the synchronous segment: [loading.value = true;
    error.value = null]. *)
Definition started (w : world) : world :=
  {| st := {| images := images (st w); loading := true; error := None |};
     console := console w |}.

(** The effect of the code that runs after the last [await]: on success
    the assignment [images.value = data] and the [finally]; on failure
    the [catch] block and the [finally].  It does not touch [error] on
    success: only the synchronous segment clears it. *)
Definition finish (w : world) (res : fetch_result) : world :=
  match res with
  | FetchSuccess d =>
      {| st := {| images := d; loading := false; error := error (st w) |};
         console := console w |}
  | FetchFailure err =>
      {| st := {| images := images (st w); loading := false;
                  error := Some (catch_message err) |};
         console := console w ++ [("Error fetching images:", err)] |}
  end.

Definition json_result (s : settled json) : fetch_result :=
  match s with
  | Fulfilled d => FetchSuccess d
  | Rejected e => FetchFailure e
  end.
End ImagesStore.

Arguments store : clear implicits.
Arguments world : clear implicits.
Arguments net_outcome R : clear implicits.

(** Unfold [fetchImages] into its statements, so that [simpl] runs it up
    to the tests on the response. *)
Ltac unfold_fetch :=
  unfold fetchImages, fetch_resume, json_resume, fetch_handlers, fetch_try_block,
    fetch_after_response, store_data in *.

(** ** Concrete inputs *)

Definition sample_image : PicsumImage :=
  {| img_id := "0"; author := "Alejandro Escamilla"; width := 5000; height := 3333;
     url := "https://unsplash.com/photos/yC-Yzbqy7PY";
     download_url := "https://picsum.photos/id/0/5000/3333" |}.

Definition sample_payload : json := JArr [encode_image sample_image].

Definition resp_200 : Response := mkResponse picsum_list_url 200.
Definition resp_500 : Response := mkResponse picsum_list_url 500.

Definition empty_world : world := {| st := initial_store; console := [] |}.

(** ** Theorems *)


Section StoreTheorems.
Context `{FetchResponse R}.
Implicit Types (w : world) (o : net_outcome R) (r : R).

(** ** Resumptions *)

Lemma fetchImages_sync w : run_sync fetchImages w = (started w, fetch_suspended).
Proof. reflexivity. Qed.

Lemma fetch_resume_rejected e w :
  run_sync (fetch_resume (Rejected e)) w = (finish w (FetchFailure e), Done tt).
Proof. reflexivity. Qed.

Lemma fetch_resume_not_ok r w :
  resp_ok r = false ->
  run_sync (fetch_resume (Fulfilled r)) w =
  (finish w (FetchFailure (new_error (http_error_message (resp_status r)))), Done tt).
Proof. intros Hr. unfold_fetch. simpl. by rewrite Hr. Qed.

Lemma fetch_resume_ok r w :
  resp_ok r = true -> run_sync (fetch_resume (Fulfilled r)) w = (w, json_suspended r).
Proof. intros Hr. unfold_fetch. simpl. by rewrite Hr. Qed.

Lemma json_resume_spec r s w :
  run_sync (json_resume r s) w = (finish w (json_result s), Done tt).
Proof. by destruct s. Qed.

Lemma apply_result_finish w res : apply_result w res = finish (started w) res.
Proof. by destruct res. Qed.

(** Running [fetchImages] consumes exactly the answers of an outcome. *)
Lemma fetchImages_outcome o w rest :
  run fetchImages (answers_of o ++ rest) w =
  Some (apply_result w (outcome_result o), rest, Normal tt).
Proof. unfold_fetch. destruct o as [e | r [d|e]]; simpl; [done | |]; by destruct (resp_ok r). Qed.

(** C1: Refinement of the contract: for every network outcome and every prior
    world, running [fetchImages] against the settlements of that outcome
    consumes exactly them, completes normally, and leaves the world
    [apply_result w (outcome_result o)]: data replaces the collection on
    success, the collection is kept and the message recorded and logged on
    failure, and [loading] is [false]. *)
Theorem fetchImages_refines o w :
  run fetchImages (answers_of o) w =
  Some (apply_result w (outcome_result o), [], Normal tt).
Proof.
  unfold_fetch. destruct o as [e | r [d|e]]; simpl; [done | |]; by destruct (resp_ok r).
Qed.

(** C2: Every run of [fetchImages] that completes is explained by the
    contract: the settlements it consumed are those of some network
    outcome, the final world is the contract's, and the returned promise
    fulfils (no exception escapes to the caller). *)
Theorem fetchImages_complete ans w w' rest c :
  run fetchImages ans w = Some (w', rest, c) ->
  exists o, ans = answers_of o ++ rest /\
            w' = apply_result w (outcome_result o) /\ c = Normal tt.
Proof.
  unfold_fetch. destruct ans as [|[[r|e]|s] ans]; simpl; try discriminate.
  - destruct (resp_ok r) eqn:Hok; simpl.
    + destruct ans as [|[s|[d|e]] ans]; simpl; try discriminate; intros [= <- <- <-].
      * exists (NetResponse r (Fulfilled d)). simpl. by rewrite Hok.
      * exists (NetResponse r (Rejected e)). simpl. by rewrite Hok.
    + intros [= <- <- <-]. exists (NetResponse r (Fulfilled JNull)). simpl. by rewrite Hok.
  - intros [= <- <- <-]. by exists (NetFail e).
Qed.

(** C15: The synchronous part of [fetchImages] sets [loading = true] and
    [error = null], keeps the collection and the console, and suspends at
    [await fetch] of the Picsum list URL before anything else happens. *)
Theorem fetchImages_sync_prefix w :
  exists k, run_sync fetchImages w = (started w, AwaitFetch picsum_list_url k).
Proof. eexists. apply fetchImages_sync. Qed.

(** C3: Success path: an ok response whose body parses to [d] leaves [images =
    d], [loading = false], [error = null] and the console unchanged,
    whatever the prior state. *)
Theorem fetchImages_success r d w :
  resp_ok r = true ->
  run fetchImages [AnsFetch (Fulfilled r); AnsJson (Fulfilled d)] w =
  Some ({| st := {| images := d; loading := false; error := None |};
           console := console w |}, [], Normal tt).
Proof.
  intros Hok. unfold_fetch. simpl. by rewrite Hok.
Qed.

(** C4: HTTP failure: a response that is not ok (status outside 200..299)
    keeps the collection, sets [loading = false], sets [error] to ["HTTP
    error! status: " ++ status], and logs the thrown [Error] once;
    [response.json()] is never awaited. *)
Theorem fetchImages_http_error r w :
  resp_ok r = false ->
  run fetchImages [AnsFetch (Fulfilled r)] w =
  Some ({| st := {| images := images (st w); loading := false;
                    error := Some (http_error_message (resp_status r)) |};
           console := console w ++
             [("Error fetching images:", new_error (http_error_message (resp_status r)))] |},
        [], Normal tt).
Proof.
  intros Hok. unfold_fetch. simpl. by rewrite Hok.
Qed.

(** C5: Any failure (rejected [fetch], non-ok status, rejected
    [response.json()]) keeps the stored collection, sets [loading =
    false], records [catch_message err] (the [Error]'s message, or
    ["Failed to fetch images"] for a non-Error value) and appends one
    console line. *)
Theorem fetchImages_failure_keeps_images o w err :
  outcome_result o = FetchFailure err ->
  exists w', run fetchImages (answers_of o) w = Some (w', [], Normal tt) /\
    images (st w') = images (st w) /\ loading (st w') = false /\
    error (st w') = Some (catch_message err) /\
    console w' = console w ++ [("Error fetching images:", err)].
Proof.
  intros Ho. pose proof (fetchImages_outcome o w []) as E.
  rewrite app_nil_r, Ho in E. rewrite E. by eexists.
Qed.

(** C20: Two calls of [fetchImages] run one after the other with the same
    successful outcome leave the same world as one call. *)
Theorem fetchImages_idempotent o w d :
  outcome_result o = FetchSuccess d ->
  run (fetchImages ;; fetchImages) (answers_of o ++ answers_of o) w =
  run fetchImages (answers_of o) w.
Proof.
  intros Ho. change (fetchImages ;; fetchImages) with (bind fetchImages (fun _ => fetchImages)).
  rewrite run_bind, fetchImages_outcome. unfold run_then.
  rewrite <- (app_nil_r (answers_of o)), !fetchImages_outcome, Ho. done.
Qed.

(** C18: Round trip: the HTTP error message is the fixed prefix followed by a
    rendering of the status from which [string_to_integer] recovers the
    status exactly. *)
Theorem http_error_message_status (status : Z) :
  exists digits, http_error_message status = "HTTP error! status: " +:+ digits /\
                 string_to_integer digits = Some status.
Proof.
  exists (number_to_string status). split; [done |].
  apply string_to_integer_number_to_string.
Qed.

(** C19: Bound: for a response whose status is in the Fetch range 0..999, the
    HTTP error message has at most 23 characters (20 of prefix and at most
    3 digits). *)
Theorem http_error_message_length r :
  status_in_range r -> (String.length (http_error_message (resp_status r)) <= 23)%nat.
Proof.
  intros Hr. unfold http_error_message. rewrite string_length_app.
  pose proof (number_to_string_length (resp_status r) 3 ltac:(lia)) as Hl.
  unfold status_in_range in Hr. simpl in *. specialize (Hl ltac:(lia)). lia.
Qed.

(** A rejection with an [Error] whose message is empty sets [error] to
    the empty string: the fallback ["Failed to fetch images"] applies only
    to values that are not [Error]s. *)
Example fetchImages_empty_message name w :
  exists w', run fetchImages [AnsFetch (Rejected (JsError name ""))] w =
             Some (w', [], Normal tt) /\ error (st w') = Some "".
Proof. by eexists. Qed.

(** ** [getImageById] *)

Lemma id_matches_true id x :
  id_matches id x = Normal true <-> get_id x = Normal (Some (JStr id)).
Proof.
  unfold id_matches. destruct (get_id x) as [[[| | |t| |]|]|e]; simpl;
    split; intros Hx; try congruence.
  - invc Hx. match goal with H : String.eqb _ _ = true |- _ => apply String.eqb_eq in H as -> end.
    done.
  - invc Hx. f_equal. apply String.eqb_refl.
Qed.

Lemma id_matches_abrupt id x e :
  id_matches id x = Abrupt e <-> x = JNull /\ e = type_error "Cannot read properties of null (reading 'id')".
Proof.
  unfold id_matches. destruct x; simpl; split; intros Hx; try discriminate;
    try (destruct Hx; discriminate); [by invc Hx | by destruct Hx as [_ ->]].
Qed.

Lemma id_matches_decoded id x i :
  decode_image x = Some i -> id_matches id x = Normal (String.eqb (img_id i) id).
Proof. intros Hx. unfold id_matches. by rewrite (decode_image_get_id x i Hx). Qed.

Lemma find_loop_decoded id xs l :
  Forall2 (fun x i => decode_image x = Some i) xs l ->
  exists m, find_loop (id_matches id) xs = Normal m /\
            m ≫= decode_image = List.find (fun i => String.eqb (img_id i) id) l.
Proof.
  induction 1 as [|x i xs l Hx _ (m & Hm & Hdec)]; simpl; [by exists None |].
  rewrite (id_matches_decoded id x i Hx).
  destruct (String.eqb (img_id i) id); [by exists (Some x) | by exists m].
Qed.

(** C6: [getImageById] returns [x] exactly when the collection is an array in
    which [x] is the first element whose [id] is the string [id], every
    element before it having been read without an exception and not
    matching. *)
Theorem getImageById_first s id x :
  getImageById s id = Normal (Some x) <->
  exists pre post, images s = JArr (pre ++ x :: post) /\
    get_id x = Normal (Some (JStr id)) /\
    Forall (fun y => id_matches id y = Normal false) pre.
Proof.
  unfold getImageById, array_find.
  destruct (images s) as [| | | |xs|]; split; try discriminate;
    try (intros (? & ? & ? & _); discriminate).
  - intros (pre & post & -> & Hx & Hpre)%find_loop_Some.
    exists pre, post. by rewrite <- id_matches_true.
  - intros (pre & post & [= ->] & Hx & Hpre). apply find_loop_Some.
    exists pre, post. by rewrite id_matches_true.
Qed.

(** C16: [getImageById] returns [undefined] exactly when the collection is an
    array none of whose elements has the [id] sought (each read without an
    exception); in particular on the initial empty collection. *)
Theorem getImageById_undefined s id :
  getImageById s id = Normal None <->
  exists xs, images s = JArr xs /\ Forall (fun y => id_matches id y = Normal false) xs.
Proof.
  unfold getImageById, array_find.
  destruct (images s) as [| | | |xs|]; split; try discriminate;
    try (intros (? & ? & _); discriminate).
  - intros Hf%find_loop_None. by exists xs.
  - intros (ys & [= <-] & Hys). by apply find_loop_None.
Qed.

(** C17: [getImageById] throws exactly when the collection is not an array, or
    when a [null] element comes before any matching element ([null.id]
    raises a [TypeError]). *)
Theorem getImageById_throws s id :
  (exists e, getImageById s id = Abrupt e) <->
  (forall xs, images s <> JArr xs) \/
  exists pre post, images s = JArr (pre ++ JNull :: post) /\
    Forall (fun y => id_matches id y = Normal false) pre.
Proof.
  unfold getImageById, array_find.
  destruct (images s) as [| | | |xs|]; split; try (intros; left; discriminate);
    try (intros _; by eexists).
  - intros [e (pre & x & post & -> & Hx & Hpre)%find_loop_Abrupt].
    apply id_matches_abrupt in Hx as [-> _]. right. by exists pre, post.
  - intros [Hn | (pre & post & [= ->] & Hpre)]; [by destruct (Hn xs) |].
    eexists. apply find_loop_Abrupt. exists pre, JNull, post. done.
Qed.

(** On a typed collection the lookup is [list_find] on the records. *)
Lemma getImageById_decoded s id l :
  decode_images (images s) = Some l ->
  exists m, getImageById s id = Normal m /\
            m ≫= decode_image = snd <$> list_find (fun i => img_id i = id) l.
Proof.
  unfold getImageById, array_find, decode_images.
  destruct (images s) as [| | | |xs|]; try discriminate.
  intros Hl%mapM_Some_1. destruct (find_loop_decoded id xs l Hl) as (m & Hm & Hdec).
  exists m. split; [done |]. rewrite Hdec, find_list_find.
  f_equal. apply list_find_ext. intros i. apply String.eqb_eq.
Qed.

(** C7: On a collection that decodes to a list of [PicsumImage] records,
    [getImageById] never throws, and the record of the element it returns
    is the one stdpp's [list_find] gives for the first record with that
    identifier ([undefined] when there is none). *)
Theorem getImageById_typed s id l :
  decode_images (images s) = Some l ->
  exists m, getImageById s id = Normal m /\
            m ≫= decode_image = snd <$> list_find (fun i => img_id i = id) l.
Proof. apply getImageById_decoded. Qed.
End StoreTheorems.

(** ** Concrete runs *)

Lemma fetchImages_complete_witness :
  run (R := Response) fetchImages [AnsFetch (Fulfilled resp_500)] empty_world =
    Some (apply_result empty_world (FetchFailure (new_error "HTTP error! status: 500")), [], Normal tt) /\
  exists o, [AnsFetch (Fulfilled resp_500)] = answers_of o ++ [] /\
    apply_result empty_world (FetchFailure (new_error "HTTP error! status: 500")) =
      apply_result empty_world (outcome_result o) /\ Normal tt = Normal tt.
Proof.
  split; [reflexivity |]. eapply fetchImages_complete. reflexivity.
Defined.

Lemma fetchImages_success_witness :
  resp_ok resp_200 = true /\
  run fetchImages [AnsFetch (Fulfilled resp_200); AnsJson (Fulfilled sample_payload)] empty_world =
    Some ({| st := {| images := sample_payload; loading := false; error := None |};
             console := [] |}, [], Normal tt).
Proof. split; [reflexivity | apply (fetchImages_success resp_200 sample_payload empty_world); reflexivity]. Defined.

Lemma fetchImages_http_error_witness :
  resp_ok resp_500 = false /\
  run fetchImages [AnsFetch (Fulfilled resp_500)] empty_world =
    Some ({| st := {| images := JArr []; loading := false;
                      error := Some (http_error_message (resp_status resp_500)) |};
             console := [("Error fetching images:",
                          new_error (http_error_message (resp_status resp_500)))] |},
          [], Normal tt).
Proof. split; [reflexivity | apply (fetchImages_http_error resp_500 empty_world); reflexivity]. Defined.

Lemma fetchImages_failure_keeps_images_witness :
  let o := NetFail (R := Response) (NonError JNull) in
  outcome_result o = FetchFailure (NonError JNull) /\
  exists w', run fetchImages (answers_of o) empty_world = Some (w', [], Normal tt) /\
    images (st w') = JArr [] /\ loading (st w') = false /\
    error (st w') = Some "Failed to fetch images" /\
    console w' = [("Error fetching images:", NonError JNull)].
Proof.
  split; [reflexivity |]. apply (fetchImages_failure_keeps_images (NetFail (NonError JNull)) empty_world (NonError JNull)). reflexivity.
Defined.

Lemma fetchImages_idempotent_witness :
  let o := NetResponse resp_200 (Fulfilled sample_payload) in
  outcome_result o = FetchSuccess sample_payload /\
  run (fetchImages ;; fetchImages) (answers_of o ++ answers_of o) empty_world =
  run fetchImages (answers_of o) empty_world.
Proof. split; [reflexivity | apply (fetchImages_idempotent (NetResponse resp_200 (Fulfilled sample_payload)) empty_world sample_payload); reflexivity]. Defined.

Lemma http_error_message_length_witness :
  status_in_range resp_500 /\ (String.length (http_error_message (resp_status resp_500)) <= 23)%nat.
Proof.
  split; [unfold status_in_range; simpl; lia |].
  apply http_error_message_length. unfold status_in_range; simpl; lia.
Defined.

Lemma getImageById_typed_witness :
  let s := {| images := sample_payload; loading := false; error := None |} in
  decode_images (images s) = Some [sample_image] /\
  exists m, getImageById s "0" = Normal m /\
            m ≫= decode_image = snd <$> list_find (fun i => img_id i = "0") [sample_image].
Proof. split; [reflexivity | apply getImageById_typed; reflexivity]. Defined.
