(* ===== verification/Network.v ===== *)
(** * The network behind [fetch]: responses with a text body

    Store.v abstracts the network into an outcome ([net_outcome]): [fetch]
    rejects, or it fulfils with a response whose [json()] settles.  This
    file says where those outcomes come from.  A server either cannot be
    reached, and [fetch] rejects with the [TypeError] of the Fetch
    standard's network error, or it answers with a status and a body
    text; [response.json()] parses the body with [JSON.parse]
    (JsonText.v) and rejects with a [SyntaxError] when it is not JSON.

    - [TextResponse] is a response with its body, an instance of
      FetchApi.v's [FetchResponse] ([ok] iff the status is in
      [200 .. 299]).
    - [response_json] is [response.json()]; [network_outcome url s] is
      the outcome of a request of [url] to the server [s].
    - [picsum_server l] is the Picsum list endpoint serving the records
      [l], printed as JSON text.

    The theorems compose the parser with the store: a fetch from a
    server that prints a list of records stores a collection that
    decodes to exactly those records; for every server, the fetch
    completes, clears [loading], and ends without an error exactly when
    the status is ok and the body is JSON text, keeping the collection
    otherwise.

    The messages of [SyntaxError] and of the network [TypeError] differ
    between engines ("Failed to fetch" is Chrome's); the store only
    copies them into [error], so each is one fixed string here. *)

From S2P Require Import Prelude JsValue JsonText ImgTypes Async FetchApi Store.

(** A response and its body, as [fetch] delivers it. *)
Record TextResponse := mkTextResponse {
  text_url : string;
  text_status : Z;
  text_body : string
}.

(** The [ok] getter: the status is an ok status, 200 to 299. *)
Definition text_ok (r : TextResponse) : bool :=
  (200 <=? text_status r)%Z && (text_status r <=? 299)%Z.

Lemma text_ok_spec (r : TextResponse) :
  text_ok r = true <-> (200 <= text_status r <= 299)%Z.
Proof. unfold text_ok. by rewrite andb_true_iff, !Z.leb_le. Qed.

#[export] Instance TextResponse_fetch : FetchResponse TextResponse := {
  resp_status := text_status;
  resp_ok := text_ok;
  resp_ok_spec := text_ok_spec
}.

(** The exception [JSON.parse] throws on a text that is not JSON. *)
Definition json_syntax_error : js_throw :=
  JsError "SyntaxError" "Unexpected token in JSON".

(** [response.json()]: the body's text parsed by [JSON.parse]. *)
Definition response_json (r : TextResponse) : settled json :=
  match parse_json (String.list_ascii_of_string (text_body r)) with
  | Some v => Fulfilled v
  | None => Rejected json_syntax_error
  end.

(** A server as the client sees it. *)
Inductive server : Type :=
| Unreachable
| Serves (status : Z) (body : string).

(** [fetch] rejects with a [TypeError] when no response arrives. *)
Definition network_error : js_throw := type_error "Failed to fetch".

(** The outcome of a request of [url]. *)
Definition network_outcome (url : string) (s : server) : net_outcome TextResponse :=
  match s with
  | Unreachable => NetFail network_error
  | Serves status body =>
      let r := mkTextResponse url status body in NetResponse r (response_json r)
  end.

(** The Picsum list endpoint serving the records [l]. *)
Definition picsum_server (l : list PicsumImage) : server :=
  Serves 200 (print_json (JArr (map encode_image l))).

(** ** Concrete servers *)

(** A proxy's error page sent with status 200. *)
Definition html_server : server := Serves 200 "<html>Bad gateway</html>".

(** ** Theorems *)

(** The outcome a server produces, read by the store's contract. *)
Lemma network_outcome_result url s :
  outcome_result (network_outcome url s) =
  match s with
  | Unreachable => FetchFailure network_error
  | Serves status body =>
      if text_ok (mkTextResponse url status body)
      then json_result (response_json (mkTextResponse url status body))
      else FetchFailure (new_error (http_error_message status))
  end.
Proof. destruct s as [|status body]; [done |]. simpl. by destruct (text_ok (mkTextResponse url status body)), (response_json (mkTextResponse url status body)). Qed.

Lemma fetchImages_network url s w :
  run fetchImages (answers_of (network_outcome url s)) w =
  Some (apply_result w (outcome_result (network_outcome url s)), [], Normal tt).
Proof. rewrite <- (app_nil_r (answers_of _)). apply fetchImages_outcome. Qed.

(** Round trip through the body of a response: [response.json()]
    of a response whose body is the JSON text a server prints for any
    value fulfils with that value, whatever the URL and the status, with
    object members in order and duplicates kept. *)
Lemma response_json_print url status v :
  response_json (mkTextResponse url status (print_json v)) = Fulfilled v.
Proof.
  unfold response_json, print_json. cbn [text_body].
  by rewrite String.list_ascii_of_string_of_list_ascii, parse_print_value.
Qed.

(** C30: Composition of the server, the JSON text and the store: when the
    list endpoint answers with an ok status and the JSON text of the
    records [l], [fetchImages] completes, stores a collection that
    decodes to exactly [l], clears [loading] and [error], and logs
    nothing. *)
Theorem fetch_picsum_records status l w :
  (200 <= status <= 299)%Z ->
  exists w', run fetchImages (answers_of (network_outcome picsum_list_url
                 (Serves status (print_json (JArr (map encode_image l)))))) w = Some (w', [], Normal tt) /\
    decode_images (images (st w')) = Some l /\
    loading (st w') = false /\ error (st w') = None /\ console w' = console w.
Proof.
  intros Hs. rewrite fetchImages_network, network_outcome_result.
  rewrite (proj2 (text_ok_spec (mkTextResponse _ _ _)) Hs), response_json_print.
  eexists; split; [done |]. split_and!; [apply decode_encode_images | done ..].
Qed.

(** C31: For every server, [fetchImages] completes and clears
    [loading]; it ends without an error exactly when the status is ok and
    the body is JSON text, and then the collection is the parsed value;
    otherwise (no response, a status out of [200 .. 299], a body that is
    not JSON) the collection is kept and one error line is logged. *)
Theorem fetch_server_outcome s w :
  exists w', run fetchImages (answers_of (network_outcome picsum_list_url s)) w = Some (w', [], Normal tt) /\
    loading (st w') = false /\
    (error (st w') = None <->
       exists status body v, s = Serves status body /\ (200 <= status <= 299)%Z /\
         parse_json (String.list_ascii_of_string body) = Some v /\ images (st w') = v) /\
    (error (st w') <> None ->
       images (st w') = images (st w) /\
       exists err, console w' = console w ++ [("Error fetching images:", err)]).
Proof.
  rewrite fetchImages_network, network_outcome_result. eexists; split; [done |].
  destruct s as [|status body]; cbn [apply_result].
  { split_and!; [done | split; [discriminate | by intros (? & ? & ? & ? & _)] | eauto]. }
  destruct (text_ok (mkTextResponse picsum_list_url status body)) eqn:Hok.
  - apply text_ok_spec in Hok. cbn [text_status] in Hok. unfold response_json. cbn [text_body].
    destruct (parse_json _) as [v|] eqn:Hp; cbn [json_result apply_result st images loading error].
    + split_and!; [done | split; [intros _; by exists status, body, v | done] | done].
    + split_and!; [done | split; [discriminate | intros (? & ? & ? & [= <- <-] & _ & Hv & _); congruence] | eauto].
  - split_and!; [done | split; [discriminate |] | eauto].
    intros (? & ? & ? & [= <- <-] & Hs & _). apply (text_ok_spec (mkTextResponse picsum_list_url status body)) in Hs.
    congruence.
Qed.

(** ** Concrete runs *)

Lemma fetch_picsum_records_witness :
  (200 <= 299 <= 299)%Z /\
  exists w', run fetchImages (answers_of (network_outcome picsum_list_url
                 (Serves 299 (print_json (JArr (map encode_image [sample_image])))))) empty_world =
             Some (w', [], Normal tt) /\
    decode_images (images (st w')) = Some [sample_image] /\
    loading (st w') = false /\ error (st w') = None /\ console w' = console empty_world.
Proof. split; [lia | apply fetch_picsum_records; lia]. Defined.

(** An error page sent with status 200 leaves the store's collection
    and records the parser's message. *)
Example html_page_rejected :
  exists w', run fetchImages (answers_of (network_outcome picsum_list_url html_server)) empty_world =
             Some (w', [], Normal tt) /\
    images (st w') = JArr [] /\ error (st w') = Some "Unexpected token in JSON" /\
    console w' = [("Error fetching images:", json_syntax_error)].
Proof. eexists. split; [vm_compute; reflexivity | done]. Qed.
