(* ===== verification/EventLoop.v ===== *)
(** * Overlapping calls of [fetchImages] on the event loop

    Nothing in [images.ts] prevents a second call of [fetchImages] while
    a first one is suspended.  The event loop runs one synchronous
    segment at a time: a consumer calls [fetchImages] ([Call]), or the
    promise a suspended call awaits settles ([SettleFetch], [SettleJson])
    and that call runs until its next [await] or its end.  The settlements
    come in any order the network chooses.

    [config] is the state of that system: the world (the store and the
    console), the suspended calls by call number (a [gmap]), the next
    call number, and the completions of the promises the calls returned.
    [step] is the executable transition function, [reach] the reachable
    configurations with the events that led to them.

    [phase_step] is the same machine with each suspended call abstracted
    to the [await] it waits at ([PhFetch], or [PhJson r] for the
    response [r]); [step_refines] shows that the concrete machine, which
    runs the code of Store.v, is exactly the abstract one.  The
    invariants are proved on the abstract machine and carried over. *)

From stdpp Require Import gmap.
From S2P Require Import Prelude JsValue Async FetchApi Store.

Local Set Warnings "-clear-no-such-hyp".

Section EventLoop.
Context `{FetchResponse R}.

(** ** Configurations *)

Record machine (T : Type) := mkMachine {
  world_of : world;
  pending : gmap nat T;
  next_id : nat;
  completions : list (nat * completion unit)
}.
Arguments mkMachine {T} _ _ _ _.
Arguments world_of {T} _.
Arguments pending {T} _.
Arguments next_id {T} _.
Arguments completions {T} _.

Definition config := machine (proc world R unit).

Definition init_world : world := {| st := initial_store; console := [] |}.

Definition init_config : config := mkMachine init_world ∅ 0 [].

Inductive event : Type :=
| Call
| SettleFetch (i : nat) (s : settled R)
| SettleJson (i : nat) (s : settled json).

(** ** The concrete machine *)

(** After a synchronous segment of call [i]: a suspended call is kept,
    a finished one is removed and its completion recorded. *)
Definition park (c : config) (i : nat) (wp : world * proc world R unit) : config :=
  let '(w, p) := wp in
  match p with
  | Done a => mkMachine w (delete i (pending c)) (next_id c) (completions c ++ [(i, Normal a)])
  | Throw e => mkMachine w (delete i (pending c)) (next_id c) (completions c ++ [(i, Abrupt e)])
  | _ => mkMachine w (<[i := p]> (pending c)) (next_id c) (completions c)
  end.

Definition step (c : config) (e : event) : option config :=
  match e with
  | Call =>
      Some (park (mkMachine (world_of c) (pending c) (S (next_id c)) (completions c))
                 (next_id c) (run_sync fetchImages (world_of c)))
  | SettleFetch i s =>
      match pending c !! i with
      | Some (AwaitFetch _ k) => Some (park c i (run_sync (k s) (world_of c)))
      | _ => None
      end
  | SettleJson i s =>
      match pending c !! i with
      | Some (AwaitJson _ k) => Some (park c i (run_sync (k s) (world_of c)))
      | _ => None
      end
  end.

Fixpoint run_events (c : config) (evs : list event) : option config :=
  match evs with
  | [] => Some c
  | e :: rest => c' ← step c e; run_events c' rest
  end.

Inductive reach : list event -> config -> Prop :=
| reach_init : reach [] init_config
| reach_step evs c e c' : reach evs c -> step c e = Some c' -> reach (evs ++ [e]) c'.

(** ** The abstract machine *)

Inductive phase : Type :=
| PhFetch
| PhJson (r : R).

Definition aconfig := machine phase.

Definition phase_proc (ph : phase) : proc world R unit :=
  match ph with
  | PhFetch => fetch_suspended
  | PhJson r => json_suspended r
  end.

Definition concretize (a : aconfig) : config :=
  mkMachine (world_of a) (phase_proc <$> pending a) (next_id a) (completions a).

Definition init_aconfig : aconfig := mkMachine init_world ∅ 0 [].

(** Call [i] ends with [res]: the code after its last [await] runs. *)
Definition aend (a : aconfig) (i : nat) (res : fetch_result) : aconfig :=
  mkMachine (finish (world_of a) res) (delete i (pending a)) (next_id a)
            (completions a ++ [(i, Normal tt)]).

Definition phase_step (a : aconfig) (e : event) : option aconfig :=
  match e with
  | Call =>
      Some (mkMachine (started (world_of a)) (<[next_id a := PhFetch]> (pending a))
                      (S (next_id a)) (completions a))
  | SettleFetch i s =>
      match pending a !! i with
      | Some PhFetch =>
          Some match s with
               | Rejected err => aend a i (FetchFailure err)
               | Fulfilled r =>
                   if resp_ok r
                   then mkMachine (world_of a) (<[i := PhJson r]> (pending a))
                                  (next_id a) (completions a)
                   else aend a i (FetchFailure (new_error (http_error_message (resp_status r))))
               end
      | _ => None
      end
  | SettleJson i s =>
      match pending a !! i with
      | Some (PhJson _) => Some (aend a i (json_result s))
      | _ => None
      end
  end.

Fixpoint run_phases (a : aconfig) (evs : list event) : option aconfig :=
  match evs with
  | [] => Some a
  | e :: rest => a' ← phase_step a e; run_phases a' rest
  end.

Inductive areach : list event -> aconfig -> Prop :=
| areach_init : areach [] init_aconfig
| areach_step evs a e a' : areach evs a -> phase_step a e = Some a' -> areach (evs ++ [e]) a'.

(** The result with which an event ends the call it settles, when it
    ends it: a rejected [fetch], a response that is not ok, or any
    settlement of [response.json()]. *)
Definition event_result (e : event) : option fetch_result :=
  match e with
  | Call => None
  | SettleFetch _ (Rejected err) => Some (FetchFailure err)
  | SettleFetch _ (Fulfilled r) =>
      if resp_ok r then None
      else Some (FetchFailure (new_error (http_error_message (resp_status r))))
  | SettleJson _ s => Some (json_result s)
  end.
(** The events a settlement of the network produces for call [i]. *)
Definition settle_events (i : nat) (o : net_outcome R) : list event :=
  match o with
  | NetFail err => [SettleFetch i (Rejected err)]
  | NetResponse r body =>
      SettleFetch i (Fulfilled r) :: (if resp_ok r then [SettleJson i body] else [])
  end.

(** ** The store as a function of the trace *)

(** What one event does to the store, read off the code: a call runs
    lines 11-12; an event that ends a call with success runs line 22 and
    the [finally]; one that ends it with failure runs the [catch] and
    the [finally]; the first settlement of an ok response changes
    nothing. *)
Definition event_store (s : store) (e : event) : store :=
  match e with
  | Call => {| images := images s; loading := true; error := None |}
  | _ =>
      match event_result e with
      | Some (FetchSuccess d) => {| images := d; loading := false; error := error s |}
      | Some (FetchFailure err) =>
          {| images := images s; loading := false; error := Some (catch_message err) |}
      | None => s
      end
  end.

Definition store_after (evs : list event) : store := foldl event_store initial_store evs.

(** The console line an event writes, if any: one per failed call. *)
Definition log_line (e : event) : option (string * js_throw) :=
  match event_result e with
  | Some (FetchFailure err) => Some ("Error fetching images:", err)
  | _ => None
  end.

Definition console_after (evs : list event) : list (string * js_throw) := omap log_line evs.

End EventLoop.

Arguments machine : clear implicits.
Arguments config R : clear implicits.
Arguments aconfig R : clear implicits.
Arguments event R : clear implicits.
Arguments phase R : clear implicits.
Arguments mkMachine {T} _ _ _ _.
Arguments world_of {T} _.
Arguments pending {T} _.
Arguments next_id {T} _.
Arguments completions {T} _.

(** ** Concrete traces *)

Definition after (evs : list (event Response)) : config Response :=
  match run_events init_config evs with Some c => c | None => init_config end.



Definition two_calls : list (event Response) := [Call; Call].

Definition overlapped_failure : list (event Response) :=
  [Call; Call; SettleFetch 0 (Rejected (NonError JNull));
   SettleFetch 1 (Fulfilled resp_200); SettleJson 1 (Fulfilled sample_payload)].

(** ** The concrete machine refines the abstract one *)

Section Refinement.
Context `{FetchResponse R}.
Implicit Types (a : aconfig R) (c : config R) (e : event R).

Lemma concretize_aend a i res :
  concretize (aend a i res) =
  park (concretize a) i (finish (world_of a) res, Done tt).
Proof. unfold concretize, aend. simpl. by rewrite fmap_delete. Qed.

Lemma lookup_concretize a i :
  pending (concretize a) !! i = phase_proc <$> pending a !! i.
Proof. apply lookup_fmap. Qed.

Lemma step_concretize a e : step (concretize a) e = concretize <$> phase_step a e.
Proof.
  destruct e as [| i s | i s]; cbn [step phase_step].
  - rewrite fetchImages_sync. unfold concretize. cbn. by rewrite fmap_insert.
  - rewrite lookup_concretize.
    destruct (pending a !! i) as [[|r]|]; cbn -[run_sync fetch_resume]; try done.
    destruct s as [r|err].
    + destruct (resp_ok r) eqn:Hok.
      * rewrite fetch_resume_ok by done. unfold concretize. cbn. by rewrite fmap_insert.
      * rewrite fetch_resume_not_ok by done. by rewrite concretize_aend.
    + rewrite fetch_resume_rejected. by rewrite concretize_aend.
  - rewrite lookup_concretize.
    destruct (pending a !! i) as [[|r]|]; cbn -[run_sync json_resume]; try done.
    rewrite json_resume_spec. by rewrite concretize_aend.
Qed.

(** C8: The event loop that runs the code of [fetchImages] (suspended calls as
    programs) takes exactly the steps of the abstract machine whose
    suspended calls are just the [await] they wait at. *)
Theorem step_refines a e : step (concretize a) e = concretize <$> phase_step a e.
Proof. apply step_concretize. Qed.

Lemma run_events_refines a evs :
  run_events (concretize a) evs = concretize <$> run_phases a evs.
Proof.
  revert a. induction evs as [|e evs IH]; intros a; simpl; [done |].
  rewrite step_concretize. destruct (phase_step a e); simpl; [apply IH | done].
Qed.

(** Every reachable configuration is the image of a reachable abstract
    one, by the same events. *)
Lemma reach_concretize evs c : reach evs c -> exists a, areach evs a /\ c = concretize a.
Proof.
  induction 1 as [|evs c e c' _ (a & Ha & ->) Hstep].
  - exists init_aconfig. split; [constructor | done].
  - rewrite step_concretize in Hstep.
    destruct (phase_step a e) as [a'|] eqn:Ha'; simplify_eq/=.
    exists a'. split; [by econstructor | done].
Qed.

Lemma run_events_app c evs1 evs2 :
  run_events c (evs1 ++ evs2) = run_events c evs1 ≫= fun c' => run_events c' evs2.
Proof.
  revert c. induction evs1 as [|e evs1 IH]; intros c; simpl; [done |].
  destruct (step c e); simpl; [apply IH | done].
Qed.

(** The inductive reachability is the executable one. *)
Lemma reach_run_events evs c : reach evs c <-> run_events init_config evs = Some c.
Proof.
  split.
  - induction 1 as [|evs c e c' _ IH Hstep]; [done |].
    rewrite run_events_app, IH. simpl. by rewrite Hstep.
  - revert c. induction evs as [|e evs IH] using rev_ind; intros c.
    + intros [= <-]. constructor.
    + rewrite run_events_app. destruct (run_events init_config evs) as [c0|] eqn:E;
        simpl; [| discriminate].
      destruct (step c0 e) as [c1|] eqn:Hs; simpl; [| discriminate].
      intros [= <-]. econstructor; [by apply IH | done].
Qed.
End Refinement.

(** ** Invariants of the abstract machine *)

Section AbstractInvariants.
Context `{FetchResponse R}.
Implicit Types (a : aconfig R) (e : event R).

(** One abstract step is a call, the first settlement of a call with
    an ok response, or the end of a call with the result the event
    carries; a successful result is the data of a [response.json()]
    fulfilment. *)
Lemma phase_step_cases a e a' :
  phase_step a e = Some a' ->
  (e = Call /\
   a' = mkMachine (started (world_of a)) (<[next_id a := PhFetch]> (pending a))
                  (S (next_id a)) (completions a)) \/
  (exists i r, pending a !! i = Some PhFetch /\ e = SettleFetch i (Fulfilled r) /\
   resp_ok r = true /\
   a' = mkMachine (world_of a) (<[i := PhJson r]> (pending a)) (next_id a) (completions a)) \/
  (exists i res, is_Some (pending a !! i) /\ a' = aend a i res /\ event_result e = Some res /\
   forall d, res = FetchSuccess d -> e = SettleJson i (Fulfilled d)).
Proof.
  destruct e as [| i s | i s]; simpl; intros Hs.
  - left. by simplify_eq.
  - destruct (pending a !! i) as [[|r]|] eqn:Hi; try discriminate. invc Hs.
    destruct s as [r|err]; [destruct (resp_ok r) eqn:Hok |].
    + right; left. by exists i, r.
    + right; right. eexists i, _. by split_and!.
    + right; right. eexists i, _. by split_and!.
  - destruct (pending a !! i) as [[|r]|] eqn:Hi; try discriminate. invc Hs.
    right; right. exists i, (json_result s). split_and!; [done | done | done |].
    intros d. destruct s; simpl; congruence.
Qed.

Local Ltac astep_cases Hs :=
  apply phase_step_cases in Hs
    as [[-> ->] | [(i & r & Hi & -> & Hok & ->) | (i & res & Hi & -> & Hev & Hres)]].

(** Call numbers in use are below the counter. *)
Lemma areach_fresh evs a : areach evs a -> forall i, is_Some (pending a !! i) -> i < next_id a.
Proof.
  induction 1 as [|evs a e a' _ IH Hs]; simpl; [by intros i [? ?] |].
  astep_cases Hs; intros j; simpl.
  - rewrite lookup_insert. case_decide; [lia |]. intros Hj. specialize (IH j Hj). lia.
  - rewrite lookup_insert. case_decide; [subst; intros _; apply IH; by rewrite Hi | apply IH].
  - rewrite lookup_delete. case_decide; [by intros [? ?] | apply IH].
Qed.

Lemma areach_loading evs a :
  areach evs a -> loading (st (world_of a)) = true -> pending a <> ∅.
Proof.
  induction 1 as [|evs a e a' _ IH Hs]; simpl; [discriminate |].
  astep_cases Hs; simpl.
  - intros _. apply insert_non_empty.
  - intros _. apply insert_non_empty.
  - unfold finish. by destruct res.
Qed.

Lemma areach_completions evs a :
  areach evs a -> Forall (fun ic => ic.2 = Normal tt) (completions a).
Proof.
  induction 1 as [|evs a e a' _ IH Hs]; simpl; [constructor |].
  astep_cases Hs; simpl; [done | done |].
  apply Forall_app. split; [done | by constructor].
Qed.

Lemma areach_images evs a :
  areach evs a ->
  images (st (world_of a)) = JArr [] \/
  exists i, SettleJson i (Fulfilled (images (st (world_of a)))) ∈ evs.
Proof.
  induction 1 as [|evs a e a' _ IH Hs]; simpl; [by left |].
  astep_cases Hs; simpl.
  - destruct IH as [-> | [j Hj]]; [by left | right; exists j; set_solver].
  - destruct IH as [-> | [j Hj]]; [by left | right; exists j; set_solver].
  - destruct res as [d|err]; simpl.
    + right. exists i. rewrite (Hres d eq_refl). set_solver.
    + destruct IH as [-> | [j Hj]]; [by left | right; exists j; set_solver].
Qed.
(** An event that ends a call updates the store as [finish] does. *)
Lemma event_store_result (s : store) e res :
  event_result e = Some res ->
  event_store s e = st (finish {| st := s; console := [] |} res) /\
  omap log_line [e] = match res with
                      | FetchFailure err => [("Error fetching images:", err)]
                      | FetchSuccess _ => []
                      end.
Proof.
  intros He. destruct e as [| i sf | i sj]; [discriminate | |];
    unfold event_store, log_line; cbn -[event_result]; rewrite He; by destruct res.
Qed.

Lemma areach_trace evs a :
  areach evs a -> st (world_of a) = store_after evs /\ console (world_of a) = console_after evs.
Proof.
  induction 1 as [|evs a e a' _ [IHs IHc] Hs]; [done |].
  unfold store_after, console_after in *. rewrite foldl_app, omap_app. cbn [foldl].
  rewrite <- IHs, <- IHc.
  astep_cases Hs.
  - simpl. by rewrite app_nil_r.
  - unfold event_store, log_line. simpl. rewrite Hok. by rewrite app_nil_r.
  - destruct (event_store_result (st (world_of a)) e res Hev) as [-> ->].
    destruct res; simpl; by rewrite ?app_nil_r.
Qed.
End AbstractInvariants.

(** ** Properties of the event loop *)

Section Properties.
Context `{FetchResponse R}.
Implicit Types (a : aconfig R) (c : config R) (e : event R).

(** C9: In every reachable configuration, whatever the interleaving of calls
    and settlements, [loading = true] implies that some call of
    [fetchImages] is still suspended. *)
Theorem loading_implies_pending evs c :
  reach evs c -> loading (st (world_of c)) = true -> pending c <> ∅.
Proof.
  intros (a & Ha & ->)%reach_concretize Hl. simpl.
  rewrite fmap_empty_iff. by eapply areach_loading.
Qed.

(** C12: In every reachable configuration, every promise returned by
    [fetchImages] that has settled has fulfilled with [undefined]: no call
    ever rejects. *)
Theorem calls_never_reject evs c :
  reach evs c -> Forall (fun ic => ic.2 = Normal tt) (completions c).
Proof. intros (a & Ha & ->)%reach_concretize. by eapply areach_completions. Qed.

(** C13: In every reachable configuration the stored collection is the initial
    empty array or a value delivered by some fulfilment of
    [response.json()] in the trace: nothing else is ever written to
    [images]. *)
Theorem images_provenance evs c :
  reach evs c ->
  images (st (world_of c)) = JArr [] \/
  exists i, SettleJson i (Fulfilled (images (st (world_of c)))) ∈ evs.
Proof. intros (a & Ha & ->)%reach_concretize. by eapply areach_images. Qed.

(** The end of call [i] removes it and records its completion. *)
Lemma aend_removes a i res :
  pending (concretize (aend a i res)) !! i = None /\
  (i, Normal tt) ∈ completions (concretize (aend a i res)).
Proof.
  split; simpl; [by rewrite lookup_fmap, lookup_delete_eq | set_solver].
Qed.

(** C10: Every suspended call of [fetchImages] in a reachable configuration
    ends after at most two settlements of its own promises, whatever they
    are: it leaves the set of suspended calls and its promise fulfils. *)
Theorem call_completes evs c i :
  reach evs c -> is_Some (pending c !! i) ->
  forall sf sj, exists evs' c',
    evs' ∈ [[SettleFetch i sf]; [SettleJson i sj]; [SettleFetch i sf; SettleJson i sj]] /\
    run_events c evs' = Some c' /\ pending c' !! i = None /\
    (i, Normal tt) ∈ completions c'.
Proof.
  intros (a & Ha & ->)%reach_concretize Hi sf sj.
  rewrite lookup_concretize in Hi.
  destruct (pending a !! i) as [[|r]|] eqn:Hp; [| | by destruct Hi].
  - destruct sf as [r|err]; [destruct (resp_ok r) eqn:Hok |].
    + exists [SettleFetch i (Fulfilled r); SettleJson i sj].
      rewrite run_events_refines. simpl. rewrite Hp, Hok. simpl.
      rewrite lookup_insert_eq. simpl. eexists. split; [set_solver |].
      split; [done | apply aend_removes].
    + exists [SettleFetch i (Fulfilled r)].
      rewrite run_events_refines. simpl. rewrite Hp, Hok. simpl.
      eexists. split; [set_solver |]. split; [done | apply aend_removes].
    + exists [SettleFetch i (Rejected err)].
      rewrite run_events_refines. simpl. rewrite Hp. simpl.
      eexists. split; [set_solver |]. split; [done | apply aend_removes].
  - exists [SettleJson i sj].
    rewrite run_events_refines. simpl. rewrite Hp. simpl.
    eexists. split; [set_solver |]. split; [done | apply aend_removes].
Qed.

(** C11: From any reachable configuration, a call of [fetchImages] whose
    settlements are delivered before any other event changes the world
    exactly as the sequential contract [apply_result] says, and leaves the
    other suspended calls as they were. *)
Theorem isolated_call_refines evs c o :
  reach evs c ->
  exists c', run_events c (Call :: settle_events (next_id c) o) = Some c' /\
    world_of c' = apply_result (world_of c) (outcome_result o) /\
    pending c' = pending c /\ next_id c' = S (next_id c) /\
    completions c' = completions c ++ [(next_id c, Normal tt)].
Proof.
  intros (a & Ha & ->)%reach_concretize.
  assert (pending a !! next_id a = None) as Hfresh.
  { destruct (pending a !! next_id a) eqn:E; [| done].
    pose proof (areach_fresh evs a Ha (next_id a) ltac:(by rewrite E)). lia. }
  rewrite run_events_refines. simpl.
  destruct o as [err | r [d|err]]; simpl; rewrite ?lookup_insert_eq; simpl;
    [| destruct (resp_ok r) eqn:Hok; simpl; rewrite ?lookup_insert_eq ..];
    eexists; (split; [done |]); simpl;
    rewrite ?insert_insert_eq, delete_insert_id by done;
    rewrite ?apply_result_finish, ?Hok; done.
Qed.
(** C14: In every reachable configuration, whatever the interleaving of
    calls and settlements, the store is the left fold of [event_store]
    over the trace and the console holds exactly one line per call that
    ended in failure, in the order of the events: the observable state
    depends only on the sequence of events, not on which calls are
    still suspended. *)
Theorem store_follows_trace evs c :
  reach evs c ->
  st (world_of c) = store_after evs /\ console (world_of c) = console_after evs.
Proof. intros (a & Ha & ->)%reach_concretize. by apply areach_trace. Qed.

(** ** Overlapping calls *)

Lemma init_config_concretize : init_config = concretize (R := R) init_aconfig.
Proof. reflexivity. Qed.

(** Overlapping calls: a reachable configuration has a call still
    suspended while [loading = false], because the [finally] of the first
    call to end clears the flag. *)
Example overlap_loading_cleared :
  exists evs c, reach evs c /\ is_Some (pending c !! 1) /\
                loading (st (world_of c)) = false.
Proof.
  exists [Call; Call; SettleFetch 0 (Rejected (NonError JNull))].
  eexists. rewrite reach_run_events. split; [reflexivity |].
  split; [by eexists | reflexivity].
Qed.

(** Overlapping calls: when an earlier call fails after a later call
    started and the later call then succeeds, the store holds the new data
    together with the earlier failure's error message. *)
Example overlap_stale_error r d err :
  resp_ok r = true ->
  exists c, run_events init_config
              [Call; Call; SettleFetch 0 (Rejected err);
               SettleFetch 1 (Fulfilled r); SettleJson 1 (Fulfilled d)] = Some c /\
            pending c = ∅ /\ images (st (world_of c)) = d /\
            error (st (world_of c)) = Some (catch_message err).
Proof.
  intros Hok. rewrite init_config_concretize, run_events_refines. simpl.
  rewrite Hok. simpl. by eexists.
Qed.

(** Overlapping calls: the call whose [response.json()] settles last
    decides the collection, even when it is the older request. *)
Example overlap_last_settlement_wins r0 r1 d0 d1 :
  resp_ok r0 = true -> resp_ok r1 = true ->
  exists c, run_events init_config
              [Call; Call; SettleFetch 1 (Fulfilled r1); SettleJson 1 (Fulfilled d1);
               SettleFetch 0 (Fulfilled r0); SettleJson 0 (Fulfilled d0)] = Some c /\
            pending c = ∅ /\ images (st (world_of c)) = d0.
Proof.
  intros Hok0 Hok1. rewrite init_config_concretize, run_events_refines. simpl.
  rewrite Hok1. simpl. rewrite Hok0. simpl. by eexists.
Qed.
End Properties.

(** ** Concrete runs *)

Lemma reach_after (evs : list (event Response)) :
  run_events init_config evs <> None -> reach evs (after evs).
Proof.
  intros Hrun. apply reach_run_events. unfold after.
  destruct (run_events init_config evs); [done | by destruct Hrun].
Qed.

Lemma loading_implies_pending_witness :
  reach two_calls (after two_calls) /\ loading (st (world_of (after two_calls))) = true /\
  pending (after two_calls) <> ∅.
Proof.
  assert (reach two_calls (after two_calls)) as Hr by (apply reach_after; discriminate).
  split; [exact Hr |]. split; [reflexivity |].
  apply (loading_implies_pending two_calls (after two_calls) Hr). reflexivity.
Defined.

Lemma calls_never_reject_witness :
  reach overlapped_failure (after overlapped_failure) /\
  Forall (fun ic => ic.2 = Normal tt) (completions (after overlapped_failure)).
Proof.
  assert (reach overlapped_failure (after overlapped_failure)) as Hr
    by (apply reach_after; discriminate).
  split; [exact Hr | apply (calls_never_reject _ _ Hr)].
Defined.

Lemma images_provenance_witness :
  reach overlapped_failure (after overlapped_failure) /\
  (images (st (world_of (after overlapped_failure))) = JArr [] \/
   exists i, SettleJson i (Fulfilled (images (st (world_of (after overlapped_failure)))))
               ∈ overlapped_failure).
Proof.
  assert (reach overlapped_failure (after overlapped_failure)) as Hr
    by (apply reach_after; discriminate).
  split; [exact Hr | apply (images_provenance _ _ Hr)].
Defined.

Lemma call_completes_witness :
  reach two_calls (after two_calls) /\ is_Some (pending (after two_calls) !! 1) /\
  exists evs' c',
    evs' ∈ [[SettleFetch 1 (Fulfilled resp_200)]; [SettleJson 1 (Fulfilled sample_payload)];
            [SettleFetch 1 (Fulfilled resp_200); SettleJson 1 (Fulfilled sample_payload)]] /\
    run_events (after two_calls) evs' = Some c' /\ pending c' !! 1 = None /\
    (1, Normal tt) ∈ completions c'.
Proof.
  assert (reach two_calls (after two_calls)) as Hr by (apply reach_after; discriminate).
  assert (is_Some (pending (after two_calls) !! 1)) as Hp by (eexists; reflexivity).
  split; [exact Hr |]. split; [exact Hp |].
  apply (call_completes _ _ 1 Hr Hp).
Defined.

Lemma isolated_call_refines_witness :
  reach two_calls (after two_calls) /\
  exists c', run_events (after two_calls)
               (Call :: settle_events (next_id (after two_calls))
                          (NetResponse resp_500 (Fulfilled JNull))) = Some c' /\
    world_of c' = apply_result (world_of (after two_calls))
                    (outcome_result (NetResponse resp_500 (Fulfilled JNull))) /\
    pending c' = pending (after two_calls) /\ next_id c' = S (next_id (after two_calls)) /\
    completions c' = completions (after two_calls) ++ [(next_id (after two_calls), Normal tt)].
Proof.
  assert (reach two_calls (after two_calls)) as Hr by (apply reach_after; discriminate).
  split; [exact Hr | apply (isolated_call_refines _ _ _ Hr)].
Defined.

Lemma store_follows_trace_witness :
  reach overlapped_failure (after overlapped_failure) /\
  st (world_of (after overlapped_failure)) = store_after overlapped_failure /\
  console (world_of (after overlapped_failure)) = console_after overlapped_failure.
Proof.
  assert (reach overlapped_failure (after overlapped_failure)) as Hr
    by (apply reach_after; discriminate).
  split; [exact Hr | apply (store_follows_trace _ _ Hr)].
Defined.
