(* ===== verification/Invariants.v ===== *)
(** * The store's fields over every interleaving of calls

    The spec says of overlapping calls that "the last write to state
    wins".  This file makes that precise.  [images_write],
    [loading_write] and [error_write] read off the code which event
    writes which field, and with which value: a call runs lines 11-12
    ([loading := true], [error := null]); the end of a call runs its
    [finally] (line 27, [loading := false]) and either line 22
    ([images := data], on success) or line 24 ([error := message], on
    failure).  [last_writes] is the abstract store whose every field is
    the last value written to it in the trace, or its initial value.

    The theorems: every reachable configuration's store is
    [last_writes] of its trace; [loading = true] never comes with an
    error message; and when every body the network delivers is a list of
    [PicsumImage] records, the collection stays typed and
    [getImageById] never throws; and every call started is accounted for
    exactly once, suspended or completed ([calls_accounted]). *)

From stdpp Require Import gmap.
From S2P Require Import Prelude JsValue ImgTypes Async FetchApi Store EventLoop.

Local Set Warnings "-clear-no-such-hyp".

Section LastWrites.
Context `{FetchResponse R}.
Implicit Types (e : event R) (evs : list (event R)).

(** [images.value = data] (line 22): only at the successful end of a
    call. *)
Definition images_write e : option json :=
  match event_result e with
  | Some (FetchSuccess d) => Some d
  | _ => None
  end.

(** [loading.value = true] (line 11) at a call, [loading.value = false]
    (line 27) at the end of a call. *)
Definition loading_write e : option bool :=
  match e with
  | Call => Some true
  | _ => match event_result e with Some _ => Some false | None => None end
  end.

(** [error.value = null] (line 12) at a call, [error.value = message]
    (line 24) at the failing end of a call. *)
Definition error_write e : option (option string) :=
  match e with
  | Call => Some None
  | _ => match event_result e with
         | Some (FetchFailure err) => Some (Some (catch_message err))
         | _ => None
         end
  end.

(** The value of a field after a trace: its last write, or [init]. *)
Definition latest {A} (w : event R -> option A) (init : A) evs : A :=
  default init (last (omap w evs)).

Definition last_writes evs : store :=
  {| images := latest images_write (images initial_store) evs;
     loading := latest loading_write (loading initial_store) evs;
     error := latest error_write (error initial_store) evs |}.

(** The hypothesis of the typed theorem: every body [response.json()]
    delivers in the trace decodes as a [PicsumImage[]]. *)
Definition typed_bodies evs : Prop :=
  forall i d, SettleJson i (Fulfilled d) ∈ evs -> is_Some (decode_images d).

(** The same check, event by event. *)
Definition body_typed e : Prop :=
  match e with
  | SettleJson _ (Fulfilled d) => is_Some (decode_images d)
  | _ => True
  end.

#[export] Instance body_typed_dec e : Decision (body_typed e).
Proof. destruct e as [| i s | i [d|err]]; simpl; apply _. Defined.

(** Every call started so far is suspended or has completed, not both,
    and has completed at most once. *)
Definition calls_accounted (c : config R) : Prop :=
  NoDup (fst <$> completions c) /\
  (forall i, i < next_id c <-> is_Some (pending c !! i) \/ i ∈ fst <$> completions c) /\
  (forall i, i ∈ fst <$> completions c -> pending c !! i = None).
End LastWrites.

(** ** Concrete trace *)

(** Two overlapping calls; the first fails, the second succeeds with the
    sample payload, then a third call starts. *)
Definition restarted : list (event Response) := overlapped_failure ++ [Call].

Section Theorems.
Context `{FetchResponse R}.
Implicit Types (e : event R) (evs : list (event R)) (s : store) (c : config R).

Lemma latest_snoc {A} (w : event R -> option A) (init : A) evs e :
  latest w init (evs ++ [e]) = match w e with Some x => x | None => latest w init evs end.
Proof. unfold latest. rewrite last_omap_snoc. by destruct (w e). Qed.

(** One event changes each field to the value it writes, if any. *)
Lemma event_store_writes s e :
  event_store s e =
  {| images := default (images s) (images_write e);
     loading := default (loading s) (loading_write e);
     error := default (error s) (error_write e) |}.
Proof.
  destruct e as [| i sf | i sj]; [done | |];
    unfold event_store, images_write, loading_write, error_write;
    destruct (event_result _) as [[d|err]|]; by destruct s.
Qed.

Lemma store_after_last_writes evs : store_after evs = last_writes evs.
Proof.
  induction evs as [|e evs IH] using rev_ind; [done |].
  unfold store_after in *. rewrite foldl_snoc, IH, event_store_writes.
  unfold last_writes. rewrite !latest_snoc. simpl.
  by destruct (images_write e), (loading_write e), (error_write e).
Qed.

Lemma typed_bodies_Forall evs : typed_bodies evs <-> Forall body_typed evs.
Proof.
  rewrite Forall_forall. split.
  - intros Ht [| i s | i [d|err]] Hin; simpl; [done | done | by apply (Ht i) | done].
  - intros Hf i d Hin. exact (Hf _ Hin).
Qed.

(** Whether a trace delivers only typed bodies is decidable. *)
#[export] Instance typed_bodies_dec evs : Decision (typed_bodies evs).
Proof.
  destruct (decide (Forall body_typed evs)) as [Hf|Hf];
    [left | right]; by rewrite typed_bodies_Forall.
Defined.

(** A reachable store is the fold of its trace (EventLoop). *)
Lemma reach_store evs c : reach evs c -> st (world_of c) = store_after evs.
Proof. intros (a & Ha & ->)%reach_concretize. apply (areach_trace evs a Ha). Qed.

Lemma event_store_loading_error s e :
  (loading s = true -> error s = None) ->
  loading (event_store s e) = true -> error (event_store s e) = None.
Proof.
  intros Hs. destruct e as [| i sf | i sj]; [done | |];
    unfold event_store; destruct (event_result _) as [[d|err]|]; simpl; auto; discriminate.
Qed.

(** The collection is the initial array or a delivered body. *)
Lemma reach_images evs c :
  reach evs c ->
  images (st (world_of c)) = JArr [] \/
  exists i, SettleJson i (Fulfilled (images (st (world_of c)))) ∈ evs.
Proof. intros (a & Ha & ->)%reach_concretize. by eapply areach_images. Qed.

(** In every reachable configuration, whatever the interleaving of
    calls and settlements, each field of the store holds the last value
    written to it by the trace (or its initial value): the collection the
    body of the last successful call to end, [loading] [true] exactly when
    the last call started after the last call ended, and [error] [null]
    when a call started after the last failure, else that failure's
    message. *)
Lemma store_last_writes evs c :
  reach evs c -> st (world_of c) = last_writes evs.
Proof. intros Hr. by rewrite (reach_store evs c Hr), store_after_last_writes. Qed.

(** C21: In every reachable configuration, [loading = true] implies
    [error = null]: a consumer never sees the spinner together with an
    error message between two events, because every call clears the error
    and every failure clears [loading]. *)
Theorem loading_clears_error evs c :
  reach evs c -> loading (st (world_of c)) = true -> error (st (world_of c)) = None.
Proof.
  intros Hr. rewrite (reach_store evs c Hr). unfold store_after.
  apply foldl_invariant; [discriminate |]. intros s e. apply event_store_loading_error.
Qed.

(** C22: When every body delivered by [response.json()] in the trace
    decodes as a [PicsumImage[]], the stored collection decodes as one in
    every reachable configuration, and [getImageById] returns without an
    exception, the record of the first element with the identifier. *)
Theorem typed_collection evs c :
  reach evs c -> typed_bodies evs ->
  exists l, decode_images (images (st (world_of c))) = Some l /\
    forall id, exists m, getImageById (st (world_of c)) id = Normal m /\
      m ≫= decode_image = snd <$> list_find (fun i => img_id i = id) l.
Proof.
  intros Hr Htyped.
  assert (is_Some (decode_images (images (st (world_of c))))) as [l Hl].
  { destruct (reach_images evs c Hr) as [-> | [i Hi]]; [by eexists | exact (Htyped i _ Hi)]. }
  exists l. split; [done |]. intros id. by apply getImageById_decoded.
Qed.
Lemma areach_accounted evs a : areach evs a -> calls_accounted (concretize a).
Proof.
  unfold calls_accounted. simpl. setoid_rewrite lookup_fmap. setoid_rewrite fmap_is_Some.
  setoid_rewrite fmap_None.
  induction 1 as [|evs a e a' Ha (IHnd & IHid & IHdis) Hs]; simpl.
  { split_and!; [constructor | intros i; rewrite lookup_empty; split; [lia | set_solver] | set_solver]. }
  pose proof (areach_fresh evs a Ha) as Hfresh.
  apply phase_step_cases in Hs
    as [[-> ->] | [(i & r & Hi & -> & _ & ->) | (i & res & Hi & -> & _ & _)]]; simpl.
  - split_and!; [done | |].
    + intros j. rewrite lookup_insert_is_Some'. specialize (IHid j). specialize (Hfresh j).
      destruct (decide (j = next_id a)) as [->|Hne]; [split; [auto | lia] |].
      split; [intros Hj; destruct (proj1 IHid ltac:(lia)); auto |].
      intros [[?|?]|?]; [congruence | |]; assert (j < next_id a) by tauto; lia.
    + intros j Hj. rewrite lookup_insert_ne; [by apply IHdis |].
      intros Heq. assert (j < next_id a) by (apply IHid; by right). lia.
  - split_and!; [done | |].
    + intros j. rewrite lookup_insert_is_Some', IHid.
      split; [tauto |]. intros [[<-|?]|?]; [left; by rewrite Hi | tauto | tauto].
    + intros j Hj. rewrite lookup_insert_ne; [by apply IHdis |].
      intros ->. by rewrite (IHdis _ Hj) in Hi.
  - rewrite fmap_app. simpl. split_and!.
    + apply NoDup_app. split_and!; [done | | apply NoDup_singleton].
      intros j Hj ->%list_elem_of_singleton. rewrite (IHdis _ Hj) in Hi. by destruct Hi.
    + intros j. rewrite IHid, lookup_delete_is_Some, elem_of_app, list_elem_of_singleton.
      destruct (decide (j = i)) as [->|]; naive_solver.
    + intros j [Hj | ->%list_elem_of_singleton]%elem_of_app; rewrite lookup_delete_None; [| by left].
      right. by apply IHdis.
Qed.

(** In every reachable configuration every call of [fetchImages]
    started so far is accounted for exactly once: it is either still
    suspended or its promise has settled, never both, and no promise
    settles twice; call numbers are exactly those below the counter. *)
Lemma calls_accounted_reach evs c : reach evs c -> calls_accounted c.
Proof. intros (a & Ha & ->)%reach_concretize. by eapply areach_accounted. Qed.
End Theorems.

(** ** Concrete runs *)

Lemma reach_restarted : reach restarted (after restarted).
Proof. apply reach_after. discriminate. Qed.

Lemma loading_clears_error_witness :
  reach restarted (after restarted) /\
  loading (st (world_of (after restarted))) = true /\
  error (st (world_of (after restarted))) = None.
Proof.
  split; [exact reach_restarted |]. split; [reflexivity |].
  apply (loading_clears_error _ _ reach_restarted). reflexivity.
Defined.

Lemma typed_collection_witness :
  reach restarted (after restarted) /\ typed_bodies restarted /\
  exists l, decode_images (images (st (world_of (after restarted)))) = Some l /\
    forall id, exists m, getImageById (st (world_of (after restarted))) id = Normal m /\
      m ≫= decode_image = snd <$> list_find (fun i => img_id i = id) l.
Proof.
  assert (typed_bodies restarted) as Ht by (apply (bool_decide_unpack _); vm_compute; done).
  split; [exact reach_restarted |]. split; [exact Ht |].
  apply (typed_collection _ _ reach_restarted Ht).
Defined.

