(* ===== verification/Termination.v ===== *)
(** * Quiescence of the event loop

    Once consumers stop calling [fetchImages], the suspended calls can
    only be settled, and each settlement runs a call to its next [await]
    or its end.  A call suspended at [await fetch(...)] needs at most two
    more settlements, one suspended at [await response.json()] at most
    one.  [settle_budget] counts them: the number of suspended calls plus
    the number of those still waiting for the response.  Every
    settlement lowers it, which gives

    - termination: the settlement steps from reachable configurations
      form a well-founded relation ([settlements_well_founded]);
    - a bound: without new calls, at most twice as many settlements as
      there are suspended calls can be delivered
      ([settlements_bounded]);
    - quiescence: whatever the configuration, settlements exist that end
      every suspended call, one per call ([settlements_drain]).

    The measure is proved to decrease on the abstract machine of
    EventLoop.v ([abudget]) and carried to the code by the refinement. *)

From Stdlib Require Import Wellfounded.
From stdpp Require Import gmap.
From S2P Require Import Prelude JsValue Async FetchApi Store EventLoop.

Section Budget.
Context `{FetchResponse R}.
Implicit Types (a : aconfig R) (c : config R) (e : event R).

(** The events that are not calls. *)
Definition settles e : bool :=
  match e with Call => false | _ => true end.

(** A suspended call waiting for the response of [fetch]. *)
Definition awaiting_fetch (p : proc world R unit) : bool :=
  match p with AwaitFetch _ _ => true | _ => false end.

Definition settle_budget c : nat :=
  size (pending c) +
  size (filter (fun kv : nat * proc world R unit => awaiting_fetch kv.2 = true) (pending c)).

Definition is_fetch (ph : phase R) : bool :=
  match ph with PhFetch => true | PhJson _ => false end.

Definition abudget a : nat :=
  size (pending a) + size (filter (fun kv : nat * phase R => is_fetch kv.2 = true) (pending a)).

(** One settlement from a reachable configuration. *)
Definition settle_rel (c' c : config R) : Prop :=
  (exists evs, reach evs c) /\ exists e, settles e = true /\ step c e = Some c'.

(** The settlement that ends a suspended call with the thrown value
    [err]: a rejection of the promise it awaits. *)
Definition end_event (i : nat) (ph : phase R) (err : js_throw) : event R :=
  match ph with
  | PhFetch => SettleFetch i (Rejected err)
  | PhJson _ => SettleJson i (Rejected err)
  end.
End Budget.

(** Three settlements after [two_calls]: call 0 succeeds, call 1 fails. *)
Definition settle_both : list (event Response) :=
  [SettleFetch 0 (Fulfilled resp_200); SettleJson 0 (Fulfilled sample_payload);
   SettleFetch 1 (Rejected (NonError JNull))].

Section Theorems.
Context `{FetchResponse R}.
Implicit Types (a : aconfig R) (c : config R) (e : event R).

Lemma map_size_delete_le {A} (m : gmap nat A) i : size (delete i m) <= size m.
Proof. rewrite map_size_delete. destruct (m !! i); simpl; lia. Qed.

Lemma map_size_delete_lt {A} (m : gmap nat A) i : is_Some (m !! i) -> size (delete i m) < size m.
Proof.
  intros [x Hx]. rewrite map_size_delete, Hx. simpl.
  destruct (size m) eqn:E; [| lia]. apply map_size_empty_inv in E. by rewrite E in Hx.
Qed.

Lemma settle_budget_concretize a : settle_budget (concretize a) = abudget a.
Proof.
  unfold settle_budget, abudget. simpl. rewrite map_filter_fmap, !map_size_fmap.
  do 2 f_equal. apply map_filter_ext. by intros i [|r] _.
Qed.

Lemma abudget_le a : abudget a <= 2 * size (pending a).
Proof. unfold abudget. pose proof (map_size_filter (fun kv : nat * phase R => is_fetch kv.2 = true) (pending a)). lia. Qed.

(** Every settlement lowers the budget of the abstract machine. *)
Lemma phase_step_budget a e a' :
  phase_step a e = Some a' -> settles e = true -> abudget a' < abudget a.
Proof.
  intros Hs Hse. unfold abudget.
  apply phase_step_cases in Hs
    as [[-> _] | [(i & r & Hi & -> & _ & ->) | (i & res & Hi & -> & _ & _)]];
    [discriminate | simpl |].
  - rewrite map_size_insert_Some by eauto.
    rewrite map_filter_insert_False by (simpl; congruence). rewrite map_filter_delete.
    enough (size (delete i (filter (fun kv : nat * phase R => is_fetch kv.2 = true) (pending a))) <
            size (filter (fun kv : nat * phase R => is_fetch kv.2 = true) (pending a))) by lia.
    apply map_size_delete_lt. exists PhFetch. by apply map_lookup_filter_Some.
  - simpl. rewrite map_filter_delete.
    pose proof (map_size_delete_le (filter (fun kv : nat * phase R => is_fetch kv.2 = true) (pending a)) i).
    pose proof (map_size_delete_lt (pending a) i Hi). lia.
Qed.

Lemma step_budget c e c' evs :
  reach evs c -> step c e = Some c' -> settles e = true -> settle_budget c' < settle_budget c.
Proof.
  intros (a & Ha & ->)%reach_concretize Hs Hse. rewrite step_concretize in Hs.
  destruct (phase_step a e) as [a'|] eqn:Ha'; simplify_eq/=.
  rewrite !settle_budget_concretize. by eapply phase_step_budget.
Qed.

Lemma run_phases_budget a evs a' :
  run_phases a evs = Some a' -> Forall (fun e => settles e = true) evs ->
  length evs + abudget a' <= abudget a.
Proof.
  revert a. induction evs as [|e evs IH]; intros a; simpl.
  - intros [= ->] _. lia.
  - destruct (phase_step a e) as [a1|] eqn:Hs; simpl; [| discriminate].
    intros Hrun [Hse Hrest]%Forall_cons. specialize (IH a1 Hrun Hrest).
    pose proof (phase_step_budget a e a1 Hs Hse). lia.
Qed.

Lemma areach_run_phases evs a evs' a' :
  areach evs a -> run_phases a evs' = Some a' -> areach (evs ++ evs') a'.
Proof.
  revert evs a. induction evs' as [|e evs' IH]; intros evs a Ha; simpl.
  - intros [= <-]. by rewrite app_nil_r.
  - destruct (phase_step a e) as [a1|] eqn:Hs; simpl; [| discriminate].
    intros Hrun. rewrite (app_assoc evs [e] evs' : evs ++ e :: evs' = _).
    apply (IH _ a1); [by econstructor | done].
Qed.

(** Ending one suspended call by a rejection of the promise it awaits. *)
Lemma phase_step_end_event a i ph err :
  pending a !! i = Some ph ->
  phase_step a (end_event i ph err) = Some (aend a i (FetchFailure err)).
Proof. intros Hi. destruct ph; simpl; by rewrite Hi. Qed.

Lemma adrain a (err : js_throw) : exists evs a',
  Forall (fun e => settles e = true) evs /\ length evs = size (pending a) /\
  run_phases a evs = Some a' /\ pending a' = ∅.
Proof.
  remember (size (pending a)) as n eqn:En. revert a En.
  induction n as [|n IH]; intros a En.
  - exists [], a. split_and!; [constructor | done | done |]. by apply map_size_empty_inv.
  - destruct (map_choose_or_empty (pending a)) as [(i & ph & Hi) | He];
      [| rewrite He, map_size_empty in En; discriminate].
    destruct (IH (aend a i (FetchFailure err))) as (evs & a' & Hse & Hlen & Hrun & Hemp).
    { simpl. rewrite map_size_delete_Some by eauto. lia. }
    exists (end_event i ph err :: evs), a'. split_and!.
    + constructor; [by destruct ph | done].
    + simpl. lia.
    + simpl. by rewrite phase_step_end_event.
    + done.
Qed.

(** C23: Termination: the settlements delivered from reachable
    configurations, without new calls of [fetchImages], form a
    well-founded relation: no infinite sequence of settlements exists,
    whatever the network delivers. *)
Theorem settlements_well_founded : well_founded (settle_rel (R := R)).
Proof.
  apply (wf_incl _ _ (ltof _ settle_budget)); [| apply well_founded_ltof].
  intros c' c [[evs Hr] (e & Hse & Hs)]. unfold ltof. by eapply step_budget.
Qed.

(** C24: Bound: from a reachable configuration with [n] suspended calls, a
    run of settlements without new calls delivers at most [2 * n] events:
    each suspended call consumes at most the settlement of its [fetch] and
    that of its [response.json()]. *)
Theorem settlements_bounded evs c evs' c' :
  reach evs c -> Forall (fun e => settles e = true) evs' ->
  run_events c evs' = Some c' -> length evs' <= 2 * size (pending c).
Proof.
  intros (a & Ha & ->)%reach_concretize Hse. rewrite run_events_refines.
  destruct (run_phases a evs') as [a'|] eqn:Hrun; [intros _ | discriminate].
  pose proof (run_phases_budget a evs' a' Hrun Hse). pose proof (abudget_le a).
  simpl. rewrite map_size_fmap. lia.
Qed.

(** C25: Quiescence: from every reachable configuration, one settlement
    per suspended call (the rejection of the promise it awaits) ends every
    suspended call; every settled call has fulfilled its promise. *)
Theorem settlements_drain evs c (err : js_throw) :
  reach evs c ->
  exists evs' c', Forall (fun e => settles e = true) evs' /\
    length evs' = size (pending c) /\ run_events c evs' = Some c' /\
    pending c' = ∅ /\ Forall (fun ic => ic.2 = Normal tt) (completions c').
Proof.
  intros (a & Ha & ->)%reach_concretize.
  destruct (adrain a err) as (evs' & a' & Hse & Hlen & Hrun & Hemp).
  exists evs', (concretize a'). split_and!; [done | by rewrite Hlen; simpl; rewrite map_size_fmap | | |].
  - by rewrite run_events_refines, Hrun.
  - simpl. by rewrite Hemp, fmap_empty.
  - apply (areach_completions (evs ++ evs') a'). by eapply areach_run_phases.
Qed.
End Theorems.

(** ** Concrete runs *)

Lemma settlements_bounded_witness :
  reach two_calls (after two_calls) /\ Forall (fun e => settles e = true) settle_both /\
  run_events (after two_calls) settle_both = Some (after (two_calls ++ settle_both)) /\
  length settle_both <= 2 * size (pending (after two_calls)).
Proof.
  assert (reach two_calls (after two_calls)) as Hr by (apply reach_after; discriminate).
  assert (Forall (fun e => settles e = true) settle_both) as Hse by repeat constructor.
  assert (run_events (after two_calls) settle_both = Some (after (two_calls ++ settle_both)))
    as Hrun by reflexivity.
  split_and!; [exact Hr | exact Hse | exact Hrun |].
  exact (settlements_bounded _ _ _ _ Hr Hse Hrun).
Defined.

Lemma settlements_drain_witness :
  reach two_calls (after two_calls) /\
  exists evs' c', Forall (fun e => settles e = true) evs' /\
    length evs' = size (pending (after two_calls)) /\
    run_events (after two_calls) evs' = Some c' /\
    pending c' = ∅ /\ Forall (fun ic => ic.2 = Normal tt) (completions c').
Proof.
  assert (reach two_calls (after two_calls)) as Hr by (apply reach_after; discriminate).
  split; [exact Hr | exact (settlements_drain _ _ (NonError JNull) Hr)].
Defined.
