(* ===== verification/Pinia.v ===== *)
(** * Pinia's store registry

    [defineStore(id, setup)] returns a function [useStore]; every call of
    it with the application's pinia looks the [id] up in the pinia's map
    of stores ([pinia._s]).  The first call runs [setup] and registers
    the store it builds; every later call returns the registered store
    itself, so that all consumers share one state.

    Pinia is a library the repository calls, not code under src/: this
    file models the part of its [useStore] the store relies on, from
    Pinia's documented behaviour.  A store is a location of a heap of
    states [St]; the registry maps ids to locations, which is the sharing
    of one object between its users.  [pinia_wf] is the registry's
    invariant (registered locations are allocated, allocated ones are
    below the allocation counter), kept by every operation. *)

From stdpp Require Import gmap.
From S2P Require Import Prelude.

Section Registry.
Context {St : Type}.

Record pinia := mkPinia {
  registry : gmap string nat;
  heap : gmap nat St;
  next_loc : nat
}.

(** [createPinia()]: no store yet. *)
Definition empty_pinia : pinia := mkPinia ∅ ∅ 0.

(** [useStore()] of [defineStore(id, setup)]: run [setup] and register
    its state when [id] has no store yet; return the registered store. *)
Definition use_store (id : string) (setup : St) (p : pinia) : pinia * nat :=
  match registry p !! id with
  | Some l => (p, l)
  | None =>
      (mkPinia (<[id := next_loc p]> (registry p)) (<[next_loc p := setup]> (heap p))
               (S (next_loc p)), next_loc p)
  end.

Definition store_at (p : pinia) (l : nat) : option St := heap p !! l.

(** A write to the store at [l], through any of its users. *)
Definition update_store (p : pinia) (l : nat) (s : St) : pinia :=
  mkPinia (registry p) (<[l := s]> (heap p)) (next_loc p).

Definition pinia_wf (p : pinia) : Prop :=
  (forall id l, registry p !! id = Some l -> is_Some (heap p !! l)) /\
  (forall l, is_Some (heap p !! l) -> l < next_loc p).
End Registry.

Arguments pinia St : clear implicits.

Section RegistryLemmas.
Context {St : Type}.
Implicit Types (p : pinia St) (s : St).

Lemma empty_pinia_wf : pinia_wf (St := St) empty_pinia.
Proof. split; simpl; intros ?; [intros ? Hl | intros [? Hl]]; by rewrite lookup_empty in Hl. Qed.

Lemma use_store_wf id setup p : pinia_wf p -> pinia_wf (use_store id setup p).1.
Proof.
  unfold use_store. intros [Hreg Hfresh].
  destruct (registry p !! id) eqn:Hid; simpl; [by split |]. split; simpl.
  - intros id' l. rewrite lookup_insert_Some. intros [[<- <-] | [_ Hl]].
    + by rewrite lookup_insert_eq.
    + rewrite lookup_insert_is_Some. right. split; [| by eapply Hreg].
      specialize (Hfresh _ (Hreg _ _ Hl)). lia.
  - intros l. rewrite lookup_insert_is_Some. intros [<- | [_ Hl]]; [lia |].
    specialize (Hfresh l Hl). lia.
Qed.

Lemma update_store_wf p l s : pinia_wf p -> is_Some (store_at p l) -> pinia_wf (update_store p l s).
Proof.
  intros [Hreg Hfresh] Hl. split; simpl.
  - intros id l' Hid. rewrite lookup_insert_is_Some. destruct (decide (l = l')); [by left | right; eauto].
  - intros l'. rewrite lookup_insert_is_Some. intros [<- | [_ Hl']]; [by apply Hfresh | auto].
Qed.

(** The store [use_store] returns is allocated: the setup's state when
    the id was new, the registered state otherwise. *)
Lemma use_store_store id setup p :
  pinia_wf p ->
  store_at (use_store id setup p).1 (use_store id setup p).2 =
  match registry p !! id with
  | Some l => store_at p l
  | None => Some setup
  end.
Proof.
  intros _. unfold use_store, store_at.
  destruct (registry p !! id); simpl; [done | by rewrite lookup_insert_eq].
Qed.

(** A second use of the same id finds the first one's store. *)
Lemma use_store_registered id setup p :
  registry (use_store id setup p).1 !! id = Some (use_store id setup p).2.
Proof. unfold use_store. destruct (registry p !! id) eqn:Hid; simpl; [done | by rewrite lookup_insert_eq]. Qed.

Lemma use_store_found id setup p l : registry p !! id = Some l -> use_store id setup p = (p, l).
Proof. unfold use_store. by intros ->. Qed.

Lemma update_store_registry p l s : registry (update_store p l s) = registry p.
Proof. done. Qed.

Lemma store_at_update p l s : store_at (update_store p l s) l = Some s.
Proof. apply lookup_insert_eq. Qed.
End RegistryLemmas.
