(* ===== verification/StoreApi.v ===== *)
(** * [useImagesStore]: the store object and its consumers

    [images.ts] exports [useImagesStore = defineStore('images', setup)].
    The setup function (lines 5-42) creates the three refs with their
    initial values (lines 6-8), defines [fetchImages] and [getImageById]
    (Store.v) and returns the object
    [{ images, loading, error, fetchImages, getImageById }]
    (lines 35-41).  Pinia registers the store the first time a consumer
    calls [useImagesStore()] and hands the same store to every later
    caller (Pinia.v).

    - [images_api] is the shape of the returned object: the three refs,
      read through [.value], and the two closures; [store_api] is the
      object of lines 35-41.
    - [ImagesStoreLaws] is what the object promises its consumers: the
      contract of [fetchImages] (Store.v's [apply_result]), the typed
      lookup, and the [images] ref reading the collection.  [store_api]
      satisfies it ([store_api_laws]); the consumer theorems are proved
      against the class, for any object that satisfies it.
    - [app] is the application's state, its pinia whose stores are
      [store] records and the global console; [useImagesStore] is the
      store's [useStore]; [consumer_fetch] and [consumer_lookup] are a
      consumer's [await store.fetchImages()] and
      [store.getImageById(id)] through the store it was handed. *)

From stdpp Require Import gmap.
From S2P Require Import Prelude JsValue ImgTypes Async FetchApi Store Pinia.

Section Api.
Context `{FetchResponse R}.

(** The object a setup store returns: the refs (read through their
    [.value]) and the functions. *)
Record images_api := mkImagesApi {
  api_images : store -> json;
  api_loading : store -> bool;
  api_error : store -> option string;
  api_fetchImages : proc world R unit;
  api_getImageById : store -> string -> completion (option json)
}.

(** [return { images, loading, error, fetchImages, getImageById }] *)
Definition store_api : images_api :=
  {| api_images := images; api_loading := loading; api_error := error;
     api_fetchImages := fetchImages; api_getImageById := getImageById |}.

(** What the store object promises its consumers. *)
Class ImagesStoreLaws (api : images_api) : Prop := {
  fetch_law o w :
    run (api_fetchImages api) (answers_of o) w =
    Some (apply_result w (outcome_result o), [], Normal tt);
  lookup_law s id l :
    decode_images (api_images api s) = Some l ->
    exists m, api_getImageById api s id = Normal m /\
              m ≫= decode_image = snd <$> list_find (fun i => img_id i = id) l;
  images_law s : api_images api s = images s
}.

(** The application: its pinia, holding the stores' states, and the
    console every store writes to. *)
Record app := mkApp {
  app_pinia : pinia store;
  app_console : list (string * js_throw)
}.

(** [useImagesStore()]: the store registered as ['images'], created by
    the setup function with the initial refs of lines 6-8 on first use. *)
Definition useImagesStore (a : app) : app * nat :=
  let '(p, l) := use_store "images" initial_store (app_pinia a) in
  (mkApp p (app_console a), l).

(** [await store.fetchImages()] by a consumer holding the store [l]. *)
Definition consumer_fetch (api : images_api) (a : app) (l : nat) (ans : list (answer R))
    : option (app * list (answer R)) :=
  s ← store_at (app_pinia a) l;
  match run (api_fetchImages api) ans {| st := s; console := app_console a |} with
  | Some (w', rest, _) => Some (mkApp (update_store (app_pinia a) l (st w')) (console w'), rest)
  | None => None
  end.

(** [store.getImageById(id)] *)
Definition consumer_lookup (api : images_api) (a : app) (l : nat) (id : string)
    : option (completion (option json)) :=
  s ← store_at (app_pinia a) l; Some (api_getImageById api s id).

(** [store.images] *)
Definition consumer_images (api : images_api) (a : app) (l : nat) : option json :=
  api_images api <$> store_at (app_pinia a) l.
End Api.

Arguments images_api R : clear implicits.

(** ** Concrete application *)

Definition app0 : app := mkApp empty_pinia [].

Definition ok_outcome : net_outcome Response := NetResponse resp_200 (Fulfilled sample_payload).

(** The first consumer's [useImagesStore()], then its awaited fetch. *)
Definition first_use : app * nat := useImagesStore app0.

Definition fetched_app : app :=
  match consumer_fetch store_api first_use.1 first_use.2 (answers_of ok_outcome) with
  | Some (a, _) => a
  | None => first_use.1
  end.

Section Theorems.
Context `{FetchResponse R}.
Implicit Types (a : app) (api : images_api R).

#[export] Instance store_api_laws : ImagesStoreLaws (store_api (R := R)).
Proof.
  split.
  - intros o w. rewrite <- (app_nil_r (answers_of o)). apply fetchImages_outcome.
  - intros s id l. apply getImageById_decoded.
  - done.
Qed.

Lemma useImagesStore_wf a : pinia_wf (app_pinia a) -> pinia_wf (app_pinia (useImagesStore a).1).
Proof.
  unfold useImagesStore. intros Hwf. pose proof (use_store_wf "images" initial_store _ Hwf) as Hw.
  by destruct (use_store _ _ _).
Qed.

(** After a first use the store is registered under ['images']. *)
Lemma useImagesStore_registered a a1 l1 :
  useImagesStore a = (a1, l1) -> registry (app_pinia a1) !! "images" = Some l1.
Proof.
  unfold useImagesStore. pose proof (use_store_registered "images" initial_store (app_pinia a)) as Hr.
  destruct (use_store _ _ _) as [p l]. by intros [= <- <-].
Qed.

(** A registered store is returned as is: the setup does not run again. *)
Lemma useImagesStore_found a l :
  registry (app_pinia a) !! "images" = Some l -> useImagesStore a = (a, l).
Proof. unfold useImagesStore. intros Hr. rewrite (use_store_found _ _ _ _ Hr). by destruct a. Qed.

Lemma useImagesStore_store a a1 l1 :
  pinia_wf (app_pinia a) -> useImagesStore a = (a1, l1) -> is_Some (store_at (app_pinia a1) l1).
Proof.
  unfold useImagesStore. intros Hwf. pose proof (use_store_store "images" initial_store _ Hwf) as Hs.
  pose proof (use_store_wf "images" initial_store _ Hwf) as [Hreg _].
  pose proof (use_store_registered "images" initial_store (app_pinia a)) as Hr.
  destruct (use_store _ _ _) as [p l]; simpl in *. intros [= <- <-]. simpl. eauto.
Qed.

(** The consumer's [await store.fetchImages()] writes the contract's
    state into the shared store and its log line into the console. *)
Lemma consumer_fetch_spec `{!ImagesStoreLaws api} a l s o :
  store_at (app_pinia a) l = Some s ->
  consumer_fetch api a l (answers_of o) =
  Some (mkApp (update_store (app_pinia a) l
                 (st (apply_result {| st := s; console := app_console a |} (outcome_result o))))
              (console (apply_result {| st := s; console := app_console a |} (outcome_result o))),
        []).
Proof. intros Hs. unfold consumer_fetch. rewrite Hs. simpl. by rewrite fetch_law. Qed.

(** C26: Two consumers that call [useImagesStore()] are handed the same
    store: the second call returns the first one's store and changes
    nothing, a fetch awaited by the first consumer is what the second
    reads in [store.images], and a later call still returns that store,
    not a fresh one. *)
Theorem consumers_share_store a0 a1 l1 a2 l2 a3 o a4 l4 :
  pinia_wf (app_pinia a0) ->
  useImagesStore a0 = (a1, l1) -> useImagesStore a1 = (a2, l2) ->
  consumer_fetch store_api a1 l1 (answers_of o) = Some (a3, []) ->
  useImagesStore a3 = (a4, l4) ->
  l2 = l1 /\ a2 = a1 /\ l4 = l1 /\ a4 = a3 /\
  exists s, store_at (app_pinia a1) l1 = Some s /\
    consumer_images store_api a3 l2 =
    Some (images (st (apply_result {| st := s; console := app_console a1 |} (outcome_result o)))).
Proof.
  intros Hwf Hu1 Hu2 Hf Hu4.
  destruct (useImagesStore_store a0 a1 l1 Hwf Hu1) as [s Hs].
  pose proof (useImagesStore_registered a0 a1 l1 Hu1) as Hreg.
  rewrite (useImagesStore_found a1 l1 Hreg) in Hu2. injection Hu2 as <- <-.
  rewrite (consumer_fetch_spec a1 l1 s o Hs) in Hf. injection Hf as <-.
  rewrite (useImagesStore_found _ l1) in Hu4 by exact Hreg. injection Hu4 as <- <-.
  split_and!; try done. exists s. split; [done |]. unfold consumer_images. simpl. by rewrite store_at_update.
Qed.

(** A consumer proved against the store's interface: for every
    store object satisfying [ImagesStoreLaws], awaiting [fetchImages]
    on the shared store with an ok response whose body decodes to the
    records [ls], then calling [getImageById(id)], returns without an
    exception the first element whose record has that identifier. *)
Lemma fetch_then_lookup `{!ImagesStoreLaws api} a l s r d ls id :
  store_at (app_pinia a) l = Some s -> resp_ok r = true -> decode_images d = Some ls ->
  exists a', consumer_fetch api a l (answers_of (NetResponse r (Fulfilled d))) = Some (a', []) /\
    exists m, consumer_lookup api a' l id = Some (Normal m) /\
              m ≫= decode_image = snd <$> list_find (fun i => img_id i = id) ls.
Proof.
  intros Hs Hok Hd. rewrite (consumer_fetch_spec a l s _ Hs). eexists. split; [done |].
  unfold consumer_lookup. simpl. rewrite store_at_update. simpl. rewrite Hok. simpl.
  destruct (lookup_law {| images := d; loading := false; error := None |} id ls)
    as (m & Hm & Hdec); [by rewrite images_law |].
  exists m. by rewrite Hm.
Qed.
End Theorems.

(** ** Concrete runs *)

Lemma consumers_share_store_witness :
  pinia_wf (app_pinia app0) /\ useImagesStore app0 = (first_use.1, first_use.2) /\
  useImagesStore first_use.1 = (first_use.1, first_use.2) /\
  consumer_fetch store_api first_use.1 first_use.2 (answers_of ok_outcome) = Some (fetched_app, []) /\
  useImagesStore fetched_app = (fetched_app, first_use.2) /\
  (first_use.2 = first_use.2 /\ first_use.1 = first_use.1 /\ first_use.2 = first_use.2 /\
   fetched_app = fetched_app /\
   exists s, store_at (app_pinia first_use.1) first_use.2 = Some s /\
     consumer_images store_api fetched_app first_use.2 =
     Some (images (st (apply_result {| st := s; console := app_console first_use.1 |}
                                    (outcome_result ok_outcome))))).
Proof.
  split; [apply empty_pinia_wf |]. do 4 (split; [reflexivity |]).
  apply (consumers_share_store app0 first_use.1 first_use.2 first_use.1 first_use.2 fetched_app
           ok_outcome fetched_app first_use.2); [apply empty_pinia_wf | reflexivity ..].
Defined.

