(* ===== verification/Reactivity.v ===== *)
(** * What a synchronous watcher of the store observes

    The store's fields are Vue refs.  A ref's setter notifies its
    dependents only when the new value differs from the old one
    ([hasChanged]), and a watcher [watch(getter, callback)] calls its
    callback only when the getter's value has changed, with the new and
    the old value.  With [{ flush: 'sync' }] the callback runs inside
    the setter, so it sees the store as it is right after that
    assignment, in the middle of a segment of [fetchImages].

    [sync_watch g old ws] is that watcher on the getter [g], over the
    worlds [ws] right after each update of a run ([Async.run_obs]).  It
    is exact for getters of primitive values ([loading], [error]), which
    Vue compares as this file does; a getter returning the [images]
    array, compared by identity in Vue, is not modelled.

    The theorems: in a call of [fetchImages] run to its end, a watcher of
    [loading] is called exactly twice (on, then off), a watcher of
    [error] sees it cleared and then set on failure; and the first call
    of the [loading] watcher sees [loading = true] beside the previous
    call's error message, the state between lines 11 and 12 that the
    event-level invariant of Invariants.v excludes. *)

From S2P Require Import Prelude JsValue Async FetchApi Store.

Section Watch.
Context {V : Type} `{!EqDecision V}.

(** [watch(g, callback, { flush: 'sync' })]: the calls of the callback,
    each with the new value, the old value and the world it can read. *)
Fixpoint sync_watch (g : world -> V) (old : V) (ws : list world) : list (V * V * world) :=
  match ws with
  | [] => []
  | w :: ws' =>
      if decide (g w = old) then sync_watch g old ws'
      else (g w, old, w) :: sync_watch g (g w) ws'
  end.
End Watch.

(** [() => store.loading] and [() => store.error] *)
Definition loading_of (w : world) : bool := loading (st w).
Definition error_of (w : world) : option string := error (st w).

(** The values a watcher is called with, without the worlds. *)
Definition watch_values {V} (calls : list (V * V * world)) : list (V * V) := fst <$> calls.

Section Theorems.
Context `{FetchResponse R}.
Implicit Types (w : world) (o : net_outcome R).

(** C29: The first call of a synchronous watcher of [loading], in a call
    of [fetchImages] started after a failed one, sees [loading = true]
    together with the previous error message: between lines 11 and 12 the
    store holds a state that no event boundary shows (Invariants.v). *)
Theorem loading_watcher_sees_stale_error o w m :
  loading (st w) = false -> error (st w) = Some m ->
  exists w1 rest, sync_watch loading_of (loading_of w) (run_obs fetchImages (answers_of o) w) =
                  (true, false, w1) :: rest /\
                  loading (st w1) = true /\ error (st w1) = Some m.
Proof.
  intros Hl He. destruct w as [[imgs ld er] con]. simpl in *. subst.
  unfold_fetch. unfold loading_of. simpl. by do 2 eexists.
Qed.

(** The worlds a run of [fetchImages] passes through: lines 11 and 12,
    then line 22 and the [finally] on success, or the [catch] block and
    the [finally] on failure. *)
Lemma fetchImages_obs o w :
  run_obs fetchImages (answers_of o) w =
  set_loading true w :: started w ::
  match outcome_result o with
  | FetchSuccess d =>
      [set_images d (started w); finish (started w) (FetchSuccess d)]
  | FetchFailure err =>
      [set_error (Some (catch_message err)) (started w);
       console_error "Error fetching images:" err (set_error (Some (catch_message err)) (started w));
       finish (started w) (FetchFailure err)]
  end.
Proof. unfold_fetch. destruct o as [e | r [d|e]]; simpl; [done | |]; by destruct (resp_ok r). Qed.

(** C27: In a call of [fetchImages] run to its end from a state where
    [loading] is [false], a synchronous watcher of [loading] is called
    exactly twice, whatever the outcome: with [true] (old [false]), then
    with [false] (old [true]). *)
Theorem loading_watcher_twice o w :
  loading (st w) = false ->
  watch_values (sync_watch loading_of (loading_of w) (run_obs fetchImages (answers_of o) w)) =
  [(true, false); (false, true)].
Proof.
  intros Hl. rewrite fetchImages_obs.
  unfold loading_of. rewrite Hl. destruct (outcome_result o) as [d|err]; done.
Qed.

(** C28: A synchronous watcher of [error] is called, in a call of
    [fetchImages] run to its end, with [null] when a previous error was
    set (line 12), then with the failure's message when the call fails
    (line 24), and at no other time. *)
Theorem error_watcher_calls o w :
  watch_values (sync_watch error_of (error_of w) (run_obs fetchImages (answers_of o) w)) =
  match error_of w with None => [] | Some m => [(None, Some m)] end ++
  match outcome_result o with
  | FetchFailure err => [(Some (catch_message err), None)]
  | FetchSuccess _ => []
  end.
Proof.
  rewrite fetchImages_obs. unfold error_of.
  destruct w as [[imgs ld [m|]] con], (outcome_result o) as [d|err]; simpl;
    by repeat (case_decide; simplify_eq/=).
Qed.


End Theorems.

(** ** Concrete runs *)

(** The world after a failed fetch from the empty store. *)
Definition failed_world : world :=
  apply_result empty_world (FetchFailure (new_error "HTTP error! status: 500")).

Lemma loading_watcher_twice_witness :
  loading (st failed_world) = false /\
  watch_values (sync_watch loading_of (loading_of failed_world)
    (run_obs fetchImages (answers_of (NetResponse resp_200 (Fulfilled sample_payload))) failed_world)) =
  [(true, false); (false, true)].
Proof. split; [reflexivity | apply loading_watcher_twice; reflexivity]. Defined.

Lemma loading_watcher_sees_stale_error_witness :
  loading (st failed_world) = false /\ error (st failed_world) = Some "HTTP error! status: 500" /\
  exists w1 rest,
    sync_watch loading_of (loading_of failed_world)
      (run_obs fetchImages (answers_of (NetResponse resp_200 (Fulfilled sample_payload))) failed_world) =
    (true, false, w1) :: rest /\
    loading (st w1) = true /\ error (st w1) = Some "HTTP error! status: 500".
Proof.
  split; [reflexivity |]. split; [reflexivity |].
  apply loading_watcher_sees_stale_error; reflexivity.
Defined.
